(* ===== verification/_CoqProject ===== *)
-Q . S2P
Prelude.v
Memory.v
Marshal.v
StringName.v
Instances.v
Registry.v
Header.v
Glue.v
Managed.v
GlueSpec.v
