(* ===== verification/Prelude.v ===== *)
(** * Verification of the StringName interop glue of the Godot/Mono module

    This development models [src/glue/string_name_glue.cpp] and
    [src/glue/string_name_glue.h]: the native half of the C# class
    [Godot.StringName].  The glue is six "internal calls" (icalls) that the
    Mono runtime resolves by name, plus the routine that registers them:

    - [godot_icall_StringName_Ctor]              [memnew(StringName())]
    - [godot_icall_StringName_String_Ctor]       [memnew(StringName(mono_string_to_godot(p_path)))]
    - [godot_icall_StringName_StringName_Ctor]   [memnew(StringName( *p_path))]
    - [godot_icall_StringName_Dtor]              [ERR_FAIL_NULL(p_ptr); memdelete(p_ptr)]
    - [godot_icall_StringName_operator_String]   [mono_string_from_godot(p_np->operator String())]
    - [godot_icall_StringName_operator_Equals]   [(MonoBoolean)p_sn1->operator==( *p_sn2)]
    - [godot_register_stringname_icalls]         six [add_internal_call(name, fn)]

    The glue calls four collaborators that are not part of [src/]: the native
    allocator ([memnew]/[memdelete]), the interned-string type [StringName],
    the marshalling helpers [GDMonoMarshal::mono_string_to_godot] and
    [mono_string_from_godot], and the internal-call table of the runtime
    ([GDMonoUtils::add_internal_call]).  They are modelled from the
    repository's specification, each behind the interface the glue relies on.

    ** Files, in dependency order

    - [Prelude]: this header; the outcome monad [M] used by all stateful
      code ([Ok] / [Fail] / [UB], notation [x <- m ;; k] in [glue_scope]);
      the [preserves] predicate that carries invariants through [bind];
      [catch_err], with which a caller turns a reported error into a
      normal return; [out_rel]
      (two runs with the same outcome) with its composition lemmas; the
      hint database [glue] and the tactic [outcome_inv].
    - [Memory]: the native heap of [memnew]/[memdelete]: pointers are [N]
      with [0] the null pointer, the heap a [gmap N V] and a bump counter.
      Dereferencing null or a freed pointer is undefined behaviour ([UB]).
    - [Marshal]: the class [MonoMarshal], the contract of the marshalling
      helpers (decoding a managed string, encoding a Godot string, with the
      round-trip laws on valid text).
    - [StringName]: the class [StringNameOps], the contract of Godot's
      [StringName] (default value, interning constructor, copy, conversion
      to [String], [operator==]) and its instance [InternTable]: a
      process-wide table from text to ids with the invariant that makes
      identity comparison coincide with text comparison.
    - [Instances]: the two instances the witnesses run the glue with:
      [text_marshal] (of [MonoMarshal]: a managed string is represented by
      its text, no UTF-16 encoding being described by the code or the
      specification) and [intern_table_ops] (of [StringNameOps], by the
      interning table).
    - [Registry]: the internal-call table of the runtime
      ([add_internal_call]) as a [gmap] from names to functions.
    - [Header]: [string_name_glue.h] and [string_name_glue.cpp] as the
      preprocessor reads them: the include guard, the [MONO_GLUE_ENABLED]
      groups, the includes and the C++ prototypes ([Proto]) of the seven
      functions; a small preprocessor [pp_items] and [translate], which
      runs it on the translation unit for a given set of macros.
    - [Glue]: the six icalls and the registration routine of
      [string_name_glue.cpp], written against the two classes in a Section
      [GlueOps], over the state [GlueState] (the heap of [StringName]
      objects and the interning table); each registration as its managed
      name [icall_name] and native function [icall_symbol].  Module
      [GlueRuns] runs the glue with the two instances on concrete inputs.
    - [Managed]: how Mono reaches the glue: boundary values ([Value]) and
      their typing by the header's prototypes, [icall_invoke] (an icall on
      argument values), [managed_call] (resolve a name and run the icall;
      an [ERR_FAIL_NULL] report in the [void] destructor returns normally
      to the managed caller, an unbound name is [MissingInternalCall]),
      managed programs [run_calls], the heap effect of a call
      ([call_allocates], [call_frees]) and [release] (a destroy of a
      non-null handle that returns).
    - [GlueSpec]: Module [HandleSpec], the abstract model the
      specification describes (a handle denotes a text, no interning), the
      abstraction relation [abs] and the refinement of single calls and of
      whole managed programs ([run_calls_refines]).

    ** What the theorems show

    - Functional behaviour of every icall on every branch ([*_run] lemmas,
      [null_handle_paths], [dtor_twice_undefined]): what is allocated,
      returned, reported through [ERR_FAIL_NULL] or undefined.
    - The state invariant [glue_wf] (well-formed heap and table, every live
      object a valid name of the table) is preserved by every icall and
      every managed call (the [*_preserves] lemmas).
    - Round trips and value semantics: [operator_String] after the
      [String] constructor returns the managed string on valid text;
      [operator_Equals] on two handles is the equality of their texts and
      is true on a copy.
    - Registration installs exactly the six names, each bound to the icall
      whose function it names, and each such function is declared by the
      header ([registration_matches_header]).
    - Safety: a call through the table with arguments of the prototype's
      types and live handles always returns normally
      ([managed_call_progress]); undefined behaviour needs a null, freed
      or never-created handle or ill-typed arguments.
    - Heap accounting: when a managed program returns normally, the live
      objects after it are those before plus one per constructor call
      minus one per destroy of a non-null handle, the allocator has moved
      by the number of constructor calls, and there is one result per call
      ([run_calls_heap_accounting]).
    - Boundary: a StringName from empty text is the default StringName
      ([string_ctor_empty_is_default]).
    - Lifetime: every live handle can be released through the table
      ([release_all], liveness) and a chain of successful destroys is
      finite ([release_wf], termination, by the number of live objects).
    - Build: the enabled build defines exactly what the header declares,
      the disabled build nothing; the include guard makes a second
      inclusion empty ([translate_build], [include_guard_idempotent]).
    - Refinement: every managed program on the concrete glue has the
      outcome of the abstract handle model, and keeps the states related
      ([run_calls_refines]).

    ** Bounds and fuel

    Only the preprocessor takes fuel: one unit per level of nested
    [#include] of a repository file.  The lemma [translate_fuel] shows that two
    levels (the [.cpp] and the header) are enough for every set of
    macros, that more fuel changes nothing and that one level runs out.
    Every other recursion (list folds, managed programs) is structural.  Pointers and ids are unbounded ([N], [positive]): the
    allocator never runs out and never reuses an address, which is the
    contract the specification gives [memnew].  64-bit pointers are not
    modelled as such; [run_calls_heap_accounting] shows instead that a
    program consumes exactly one address per constructor call, so no run
    with fewer than 2^64 constructor calls can make handles wrap around.

    ** What is not modelled

    The UTF-16 encoding of [GDMonoMarshal] (neither [src/] nor the
    specification describes how a managed string becomes a Godot string,
    so the glue is proved for every [MonoMarshal]); the Mono
    garbage-collected heap (a managed string returned by
    [operator_String] is a value); the reference counts of Godot's
    [StringName::_Data] (the specification describes a table that only
    grows); concurrency (every icall runs on the calling thread and the
    specification introduces no shared state besides the table); a null
    [MonoString] argument (neither the code nor the specification says
    what [mono_string_to_godot] makes of it); the contents of the headers
    included from outside the repository ([string_name.h],
    [gd_mono_marshal.h], [ustring.h]), which the preprocessor records
    without expanding; the licence banners. *)

From stdpp Require Export base gmap strings list.
From Stdlib Require Export ZArith Lia.

Set Default Goal Selector "!".

Declare Scope glue_scope.
Delimit Scope glue_scope with glue.

(** ** The outcome monad

    A call ends normally ([Ok]), reports an error through Godot's error
    macros ([Fail], the state being the one at the point of the report), or
    performs undefined behaviour ([UB]: a null or dangling dereference). *)

Inductive outcome (S E A : Type) : Type :=
| Ok (a : A) (s : S)
| Fail (e : E) (s : S)
| UB.
Arguments Ok {S E A} a s.
Arguments Fail {S E A} e s.
Arguments UB {S E A}.

Definition M (S E A : Type) : Type := S -> outcome S E A.

Section Monad.
Context {S E : Type}.

Definition ret {A} (a : A) : M S E A := fun s => Ok a s.

Definition bind {A B} (m : M S E A) (k : A -> M S E B) : M S E B :=
  fun s =>
    match m s with
    | Ok a s' => k a s'
    | Fail e s' => Fail e s'
    | UB => UB
    end.

Definition fail {A} (e : E) : M S E A := fun s => Fail e s.
Definition undefined {A} : M S E A := fun _ => UB.
Definition get : M S E S := fun s => Ok s s.
Definition put (s : S) : M S E unit := fun _ => Ok tt s.

(** Lift a partial read of the state: [None] is undefined behaviour. *)
Definition lift_opt {A} (f : S -> option A) : M S E A :=
  fun s => match f s with Some a => Ok a s | None => UB end.

(** The caller handles the errors [m] reports: an error [e] becomes the
  normal result [h e], in the state the report left. *)
Definition catch_err {E' A} (h : E -> A) (m : M S E A) : M S E' A :=
  fun s => match m s with
           | Ok a s' => Ok a s'
           | Fail e s' => Ok (h e) s'
           | UB => UB
           end.

(** [m] keeps [P] on every run that does not end in undefined behaviour. *)
Definition preserves {A} (P : S -> Prop) (m : M S E A) : Prop :=
  forall s, P s ->
    match m s with
    | Ok _ s' | Fail _ s' => P s'
    | UB => True
    end.
End Monad.

Notation "x <- m ;; k" := (bind m (fun x => k))
(at level 100, m at next level, right associativity) : glue_scope.
Notation "m ;;; k" := (bind m (fun _ => k))
(at level 100, right associativity) : glue_scope.

(** Two outcomes agree: the same value and related states, the same error
  and related states, or undefined behaviour on both sides. *)
Definition out_rel {S1 S2 E A} (R : S1 -> S2 -> Prop)
  (o1 : outcome S1 E A) (o2 : outcome S2 E A) : Prop :=
match o1, o2 with
| Ok x s1, Ok y s2 => x = y /\ R s1 s2
| Fail e1 s1, Fail e2 s2 => e1 = e2 /\ R s1 s2
| UB, UB => True
| _, _ => False
end.

Create HintDb glue.

(** ** Monad laws and the reasoning rules the components share *)

Section MonadLemmas.
Context {S E : Type}.
Local Open Scope glue_scope.

Lemma bind_ret_l {A B} (a : A) (k : A -> M S E B) s :
  bind (ret a) k s = k a s.
Proof. reflexivity. Qed.

Lemma bind_ret_r {A} (m : M S E A) s : bind m ret s = m s.
Proof. unfold bind, ret. by destruct (m s). Qed.

Lemma bind_assoc {A B C} (m : M S E A) (k : A -> M S E B) (h : B -> M S E C) s :
  bind (bind m k) h s = bind m (fun a => bind (k a) h) s.
Proof. unfold bind. by destruct (m s). Qed.

Lemma bind_Ok_inv {A B} (m : M S E A) (k : A -> M S E B) s b s' :
  bind m k s = Ok b s' -> exists a s1, m s = Ok a s1 /\ k a s1 = Ok b s'.
Proof. unfold bind. destruct (m s); naive_solver. Qed.

Lemma bind_UB {A B} (m : M S E A) (k : A -> M S E B) s :
  m s = UB -> bind m k s = UB.
Proof. unfold bind. by intros ->. Qed.

Lemma bind_Ok {A B} (m : M S E A) (k : A -> M S E B) s a s1 :
  m s = Ok a s1 -> bind m k s = k a s1.
Proof. unfold bind. by intros ->. Qed.

Lemma preserves_ret {A} P (a : A) : preserves (S:=S) (E:=E) P (ret a).
Proof. by intros s Hs. Qed.

Lemma preserves_fail {A} P e : preserves (S:=S) (E:=E) (A:=A) P (fail e).
Proof. by intros s Hs. Qed.

Lemma preserves_undefined {A} P : preserves (S:=S) (E:=E) (A:=A) P undefined.
Proof. by intros s Hs. Qed.

Lemma preserves_lift_opt {A} P (f : S -> option A) :
  preserves (E:=E) P (lift_opt f).
Proof. intros s Hs. unfold lift_opt. by destruct (f s). Qed.

Lemma preserves_bind {A B} P (m : M S E A) (k : A -> M S E B) :
  preserves P m -> (forall a, preserves P (k a)) -> preserves P (bind m k).
Proof.
  intros Hm Hk s Hs. unfold bind. specialize (Hm s Hs).
  destruct (m s) as [a s'|e s'|]; [by apply Hk| done | done].
Qed.

(** Agreement of outcomes is compositional. *)
Lemma out_rel_bind {S2 A B} (R : S -> S2 -> Prop)
  (m1 : M S E A) (k1 : A -> M S E B) (m2 : M S2 E A) (k2 : A -> M S2 E B) s a :
  out_rel R (m1 s) (m2 a) ->
  (forall x s' a', R s' a' -> out_rel R (k1 x s') (k2 x a')) ->
  out_rel R (bind m1 k1 s) (bind m2 k2 a).
Proof.
  unfold bind. intros Hm Hk.
  destruct (m1 s), (m2 a); simpl in Hm; try done; destruct Hm as [-> HR].
  by apply Hk.
Qed.

Lemma preserves_catch_err {E' A} P (h : E -> A) (m : M S E A) :
  preserves P m -> preserves (E:=E') P (catch_err h m).
Proof. intros Hm s Hs. specialize (Hm s Hs). unfold catch_err. by destruct (m s). Qed.

Lemma out_rel_catch_err {S2 E' A} (R : S -> S2 -> Prop) (h : E -> A) (m1 : M S E A) (m2 : M S2 E A) s a :
  out_rel R (m1 s) (m2 a) -> out_rel (E:=E') R (catch_err h m1 s) (catch_err h m2 a).
Proof. unfold catch_err. destruct (m1 s), (m2 a); simpl; naive_solver. Qed.

Lemma out_rel_ret {S2 A} (R : S -> S2 -> Prop) (x : A) s a :
  R s a -> out_rel R (ret (E:=E) x s) (ret (E:=E) x a).
Proof. done. Qed.
End MonadLemmas.

#[export] Hint Resolve preserves_ret preserves_fail preserves_undefined
  preserves_lift_opt preserves_bind preserves_catch_err : glue.

(** [outcome_inv H] decomposes a hypothesis [H : bind .. s = Ok ..] into the
runs of its steps. *)
Ltac outcome_inv H :=
  repeat match type of H with
  | bind _ _ _ = Ok _ _ =>
  let a := fresh "a" in let s := fresh "s" in
  let H1 := fresh "Hstep" in
  apply bind_Ok_inv in H as (a & s & H1 & H)
  end.


