(* ===== verification/Memory.v ===== *)
(** * The native heap of [memnew] / [memdelete]

    Godot's [memnew(T(...))] allocates a fresh object and returns a non-null
    pointer to it; [memdelete(p)] destroys the object and releases its
    storage.  The allocator is not part of [src/]; its contract is the one
    the specification gives the glue: each create allocates one native
    handle, each destroy releases one.  A pointer is an [N] and [0] is
    [nullptr]; the heap is a [gmap] from live addresses to objects plus the
    next address of a bump allocator, so that an address is never reused
    and every access through a freed pointer is detected as undefined
    behaviour.  The allocator never runs out of memory. *)

From S2P Require Import Prelude.

Module Memory.

Abbreviation ptr := N (only parsing).
Definition nullptr : ptr := 0%N.

Record heap (V : Type) := mk_heap {
  cells : gmap N V;
  next_addr : N
}.
Arguments mk_heap {V} cells next_addr.
Arguments cells {V} h.
Arguments next_addr {V} h.

Section Heap.
Context {V : Type}.
Implicit Types (h : heap V) (p : ptr) (v : V).

Definition empty_heap : heap V := mk_heap ∅ 1%N.

(** [memnew]: the object is placed at the next address. *)
Definition memnew v h : ptr * heap V :=
  let p := next_addr h in
  (p, mk_heap (<[p:=v]> (cells h)) (p + 1)%N).

(** [memdelete]: releasing an address that holds no object (null, never
    allocated, or already released) is undefined behaviour: [None]. *)
Definition memdelete p h : option (heap V) :=
  match cells h !! p with
  | Some _ => Some (mk_heap (delete p (cells h)) (next_addr h))
  | None => None
  end.

(** [*p]: reading through a pointer that holds no object is undefined. *)
Definition deref p h : option V := cells h !! p.

Definition is_live p h : bool := bool_decide (is_Some (cells h !! p)).

Definition live_count h : nat := size (cells h).

(** Well-formedness: null is never allocated and every live address is
    below the bump pointer. *)
Definition heap_wf h : Prop :=
  (0 < next_addr h)%N /\
  forall p, is_Some (cells h !! p) -> (0 < p < next_addr h)%N.
End Heap.

#[global] Arguments memnew : simpl never.

(** ** Lemmas on the allocator *)

Section HeapLemmas.
Context {V : Type}.
Implicit Types (h : heap V) (p : ptr) (v : V).

Lemma empty_heap_wf : heap_wf (empty_heap (V:=V)).
Proof. split; [simpl; lia|]. intros p [? Hp]. simpl in Hp. by rewrite lookup_empty in Hp. Qed.

Lemma heap_wf_null h : heap_wf h -> cells h !! nullptr = None.
Proof.
  intros [_ Hlt]. destruct (cells h !! nullptr) eqn:E; [|done].
  exfalso. specialize (Hlt nullptr). rewrite E in Hlt. unfold nullptr in Hlt.
  destruct Hlt; [done|lia].
Qed.

Lemma heap_wf_next_free h : heap_wf h -> cells h !! next_addr h = None.
Proof.
  intros [_ Hlt]. destruct (cells h !! next_addr h) eqn:E; [|done].
  exfalso. specialize (Hlt (next_addr h)). rewrite E in Hlt. destruct Hlt; [done|lia].
Qed.

Lemma deref_null h : heap_wf h -> deref nullptr h = None.
Proof. apply heap_wf_null. Qed.

Lemma memnew_wf v h : heap_wf h -> heap_wf (memnew v h).2.
Proof.
  intros [Hn Hlt]. split; simpl; [lia|]. intros q Hq.
  rewrite lookup_insert in Hq. case_decide; [subst; lia|].
  specialize (Hlt q Hq). lia.
Qed.

Lemma memnew_nonnull v h : heap_wf h -> (memnew v h).1 <> nullptr.
Proof. intros [Hn _]. unfold nullptr. simpl. lia. Qed.

Lemma memnew_fresh v h : heap_wf h -> cells h !! (memnew v h).1 = None.
Proof. apply heap_wf_next_free. Qed.

Lemma deref_memnew_eq v h : deref (memnew v h).1 (memnew v h).2 = Some v.
Proof. apply lookup_insert_eq. Qed.

Lemma deref_memnew_next v h : deref (next_addr h) (memnew v h).2 = Some v.
Proof. apply lookup_insert_eq. Qed.

Lemma next_addr_memnew v h : next_addr (memnew v h).2 = (next_addr h + 1)%N.
Proof. reflexivity. Qed.

Lemma deref_memnew_ne v h q :
  q <> (memnew v h).1 -> deref q (memnew v h).2 = deref q h.
Proof. intros Hq. by apply lookup_insert_ne. Qed.

Lemma deref_memnew_live v h q :
  heap_wf h -> is_Some (deref q h) -> deref q (memnew v h).2 = deref q h.
Proof.
  intros Hwf Hq. apply lookup_insert_ne. intros Heq. subst q.
  unfold deref in Hq. rewrite (heap_wf_next_free h Hwf) in Hq. by destruct Hq.
Qed.

Lemma live_count_memnew v h :
  heap_wf h -> live_count (memnew v h).2 = S (live_count h).
Proof. intros Hwf. by apply map_size_insert_None, heap_wf_next_free. Qed.

Lemma memdelete_Some p h :
  is_Some (cells h !! p) -> memdelete p h = Some (mk_heap (delete p (cells h)) (next_addr h)).
Proof. intros [v Hv]. unfold memdelete. by rewrite Hv. Qed.

Lemma memdelete_None p h : cells h !! p = None -> memdelete p h = None.
Proof. unfold memdelete. by intros ->. Qed.

Lemma memdelete_wf p h h' : heap_wf h -> memdelete p h = Some h' -> heap_wf h'.
Proof.
  unfold memdelete. intros [Hn Hlt] Hd.
  destruct (cells h !! p) eqn:E; [|done]. injection Hd as <-.
  split; [done|]. simpl. intros q Hq. apply Hlt.
  rewrite lookup_delete in Hq. by case_decide.
Qed.

Lemma deref_memdelete p h h' q :
  memdelete p h = Some h' -> deref q h' = if decide (p = q) then None else deref q h.
Proof.
  unfold memdelete, deref. destruct (cells h !! p); [|done].
  intros Hd. injection Hd as <-. apply lookup_delete.
Qed.

Lemma next_addr_memdelete p h h' :
  memdelete p h = Some h' -> next_addr h' = next_addr h.
Proof. unfold memdelete. destruct (cells h !! p); [|done]. by intros [= <-]. Qed.

Lemma live_count_memdelete p h h' :
  memdelete p h = Some h' -> S (live_count h') = live_count h.
Proof.
  unfold memdelete, live_count. destruct (cells h !! p) eqn:E; [|done].
  intros [= <-]. simpl. rewrite map_size_delete_Some; [|by eexists].
  assert (size (cells h) <> 0). { apply map_size_ne_0_lookup. by exists p, v. }
  lia.
Qed.
(** Everything [memnew] guarantees, in one statement. *)
Lemma memnew_spec v h :
  heap_wf h ->
  next_addr h <> nullptr /\ deref (next_addr h) h = None /\
  deref (next_addr h) (memnew v h).2 = Some v /\
  live_count (memnew v h).2 = S (live_count h) /\
  forall q, q <> next_addr h -> deref q (memnew v h).2 = deref q h.
Proof.
  intros Hwf. split_and!.
  - by apply (memnew_nonnull v).
  - by apply heap_wf_next_free.
  - apply deref_memnew_next.
  - by apply live_count_memnew.
  - intros q Hq. by apply deref_memnew_ne.
Qed.
End HeapLemmas.

#[export] Hint Resolve empty_heap_wf memnew_wf memdelete_wf : glue.

End Memory.
