(* ===== verification/Marshal.v ===== *)
(** * The marshalling contract between managed and Godot strings

    [GDMonoMarshal::mono_string_to_godot] turns a managed [System.String]
    into a Godot [String]; [GDMonoMarshal::mono_string_from_godot] builds a
    managed string from a Godot one.  Neither is in [src/]; the
    specification asks for them to be treated as a pair of pure conversion
    functions.  The class below is what the glue relies on: the two
    conversions, a decidable notion of well-formed text on each side, and
    the laws that make a conversion round trip on well-formed text.  A
    Godot string is a list of character codes ([list Z]); the representation
    of a managed string is left to the instance. *)

From S2P Require Import Prelude.

Abbreviation GodotString := (list Z) (only parsing).

Class MonoMarshal := {
  MonoString : Type;
  mono_string_to_godot : MonoString -> GodotString;
  mono_string_from_godot : GodotString -> MonoString;
  godot_text_ok : GodotString -> bool;
  mono_text_ok : MonoString -> bool;
  (* decoding a managed string always yields well-formed Godot text *)
  marshal_to_ok : forall m, godot_text_ok (mono_string_to_godot m) = true;
  (* encoding well-formed Godot text yields a well-formed managed string *)
  marshal_from_ok : forall s, godot_text_ok s = true -> mono_text_ok (mono_string_from_godot s) = true;
  marshal_to_from : forall s, godot_text_ok s = true -> mono_string_to_godot (mono_string_from_godot s) = s;
  marshal_from_to : forall m, mono_text_ok m = true -> mono_string_from_godot (mono_string_to_godot m) = m;
  (* the empty string maps to the empty string both ways *)
  marshal_to_nil : godot_text_ok [] = true
}.
Arguments MonoString : clear implicits.

Section MarshalFacts.
Context `{MonoMarshal}.

(** Decoding is injective on well-formed managed strings: two managed
    strings that marshal to the same Godot text are equal. *)
Lemma mono_string_to_godot_inj m1 m2 :
  mono_text_ok m1 = true -> mono_text_ok m2 = true ->
  mono_string_to_godot m1 = mono_string_to_godot m2 -> m1 = m2.
Proof.
  intros H1 H2 Heq.
  by rewrite <- (marshal_from_to m1 H1), <- (marshal_from_to m2 H2), Heq.
Qed.
End MarshalFacts.
