(* ===== verification/StringName.v ===== *)
(** * Godot's [StringName]: its contract and an interning table

    The glue constructs, copies, converts and compares [StringName] values;
    the type lives in [core/string/string_name.h], outside [src/].  The
    specification describes it as a handle on a deduplicated string held in
    a process-wide interning table, compared by value.  The class
    [StringNameOps] states what the glue relies on: a default (empty) name,
    a constructor that interns a Godot string in the table, a copy
    constructor, [operator String] and [operator==], with the laws relating
    them.  [InternTable] implements the class: the table maps text to ids
    and ids back to text, a name is the id of its entry ([None] for the
    empty name, Godot's null [_data]), and [operator==] compares ids only,
    which the table invariant makes equivalent to comparing the texts. *)

From S2P Require Import Prelude Marshal.

Class StringNameOps := {
  sn_table : Type;
  StringName : Type;
  (* [StringName()] *)
  sn_default : StringName;
  (* [StringName(const String &)]: may add an entry to the table *)
  sn_intern : GodotString -> sn_table -> StringName * sn_table;
  (* [StringName(const StringName &)] *)
  sn_copy : StringName -> StringName;
  (* [StringName::operator String() const] *)
  sn_to_string : sn_table -> StringName -> GodotString;
  (* [StringName::operator==(const StringName &) const] *)
  sn_eqb : StringName -> StringName -> bool;
  sn_table_wf : sn_table -> Prop;
  sn_valid : sn_table -> StringName -> Prop;

  sn_default_valid : forall t, sn_valid t sn_default;
  sn_default_string : forall t, sn_to_string t sn_default = [];
  sn_intern_wf : forall s t, sn_table_wf t -> sn_table_wf (sn_intern s t).2;
  sn_intern_valid : forall s t, sn_table_wf t -> sn_valid (sn_intern s t).2 (sn_intern s t).1;
  sn_intern_string : forall s t, sn_table_wf t ->
    sn_to_string (sn_intern s t).2 (sn_intern s t).1 = s;
  (* interning never changes what an existing name denotes *)
  sn_intern_stable : forall s t a, sn_table_wf t -> sn_valid t a ->
    sn_valid (sn_intern s t).2 a /\ sn_to_string (sn_intern s t).2 a = sn_to_string t a;
  (* interning is deduplicating: a second intern of a text adds nothing *)
  sn_intern_idem : forall s t, sn_table_wf t -> sn_intern s (sn_intern s t).2 = sn_intern s t;
  sn_copy_valid : forall t a, sn_valid t a -> sn_valid t (sn_copy a);
  sn_copy_string : forall t a, sn_to_string t (sn_copy a) = sn_to_string t a;
  (* value equality: [==] holds exactly when the texts are equal *)
  sn_eqb_spec : forall t a b, sn_table_wf t -> sn_valid t a -> sn_valid t b ->
    sn_eqb a b = true <-> sn_to_string t a = sn_to_string t b
}.
Arguments StringName : clear implicits.
Arguments sn_table : clear implicits.

Module InternTable.

Record table := mk_table {
  by_text : gmap (list Z) positive;
  by_id : gmap positive (list Z);
  next_id : positive
}.

(** A name is the id of its table entry; [None] is the empty name. *)
Definition name := option positive.

Definition empty_table : table := mk_table ∅ ∅ 1%positive.

Definition intern (s : list Z) (t : table) : name * table :=
  match s with
  | [] => (None, t)
  | _ =>
      match by_text t !! s with
      | Some i => (Some i, t)
      | None =>
          let i := next_id t in
          (Some i, mk_table (<[s:=i]> (by_text t)) (<[i:=s]> (by_id t)) (Pos.succ i))
      end
  end.

Definition to_string (t : table) (n : name) : list Z :=
  match n with
  | None => []
  | Some i => default [] (by_id t !! i)
  end.

(** [operator==] compares the [_data] pointers, i.e. the ids. *)
Definition eqb (a b : name) : bool := bool_decide (a = b).

Definition copy (a : name) : name := a.

(** The two maps are inverse, ids are below the counter, and the empty
    text is never stored (it is the null name). *)
Definition table_wf (t : table) : Prop :=
  (forall s i, by_text t !! s = Some i <-> by_id t !! i = Some s) /\
  (forall i s, by_id t !! i = Some s -> (i < next_id t)%positive /\ s <> []).

Definition valid (t : table) (n : name) : Prop :=
  match n with None => True | Some i => is_Some (by_id t !! i) end.

(** ** Lemmas on the table *)

Lemma empty_table_wf : table_wf empty_table.
Proof.
  split.
  - intros s i. simpl. rewrite !lookup_empty. split; discriminate.
  - intros i s. simpl. rewrite lookup_empty. discriminate.
Qed.

Lemma table_wf_fresh t : table_wf t -> by_id t !! next_id t = None.
Proof.
  intros [_ Hlt]. destruct (by_id t !! next_id t) as [s|] eqn:E; [|done].
  destruct (Hlt _ _ E). lia.
Qed.

(** The case of [intern] that adds an entry. *)
Lemma intern_new t s :
  s <> [] -> by_text t !! s = None ->
  intern s t = (Some (next_id t),
    mk_table (<[s:=next_id t]> (by_text t)) (<[next_id t:=s]> (by_id t)) (Pos.succ (next_id t))).
Proof. intros Hs Hnone. destruct s; [done|]. simpl. by rewrite Hnone. Qed.

Lemma intern_found t s i :
  s <> [] -> by_text t !! s = Some i -> intern s t = (Some i, t).
Proof. intros Hs Hi. destruct s; [done|]. simpl. by rewrite Hi. Qed.

Lemma intern_wf s t : table_wf t -> table_wf (intern s t).2.
Proof.
  intros Hwf. pose proof (table_wf_fresh t Hwf) as Hfresh. destruct Hwf as [Hinv Hlt].
  destruct (decide (s = [])) as [->|Hs]; [done|].
  destruct (by_text t !! s) as [i|] eqn:Hi; [by rewrite (intern_found t s i Hs Hi)|].
  rewrite intern_new by done. split; simpl.
  - intros s' i'. rewrite !lookup_insert.
    case_decide as Hss; case_decide as Hii; [naive_solver| | |]; subst.
    + split; [congruence|]. intros Hb. apply Hinv in Hb. congruence.
    + split; [|congruence]. intros Hb%Hinv. congruence.
    + apply Hinv.
  - intros i' s'. rewrite lookup_insert. case_decide; [intros [= <-]; subst; split; [lia|done]|].
    intros Hb. destruct (Hlt _ _ Hb). split; [lia|done].
Qed.

Lemma intern_string s t : table_wf t -> to_string (intern s t).2 (intern s t).1 = s.
Proof.
  intros Hwf. destruct (decide (s = [])) as [->|Hs]; [done|].
  destruct (by_text t !! s) as [i|] eqn:Hi.
  - rewrite (intern_found t s i Hs Hi). simpl. apply (proj1 Hwf) in Hi. by rewrite Hi.
  - rewrite intern_new by done. simpl. by rewrite lookup_insert_eq.
Qed.

Lemma intern_valid s t : table_wf t -> valid (intern s t).2 (intern s t).1.
Proof.
  intros Hwf. destruct (decide (s = [])) as [->|Hs]; [done|].
  destruct (by_text t !! s) as [i|] eqn:Hi.
  - rewrite (intern_found t s i Hs Hi). simpl. apply (proj1 Hwf) in Hi. by eexists.
  - rewrite intern_new by done. simpl. by rewrite lookup_insert_eq.
Qed.

Lemma intern_stable s t a :
  table_wf t -> valid t a -> valid (intern s t).2 a /\ to_string (intern s t).2 a = to_string t a.
Proof.
  intros Hwf Ha. pose proof (table_wf_fresh t Hwf) as Hfresh.
  destruct (decide (s = [])) as [->|Hs]; [done|].
  destruct (by_text t !! s) as [i|] eqn:Hi; [by rewrite (intern_found t s i Hs Hi)|].
  rewrite intern_new by done. destruct a as [j|]; [|done]. simpl in *.
  assert (j <> next_id t) by (intros ->; destruct Ha; congruence).
  by rewrite lookup_insert_ne.
Qed.

(** Identity comparison decides text comparison. *)
Lemma eqb_text t a b :
  table_wf t -> valid t a -> valid t b -> eqb a b = true <-> to_string t a = to_string t b.
Proof.
  intros [Hinv Hlt] Ha Hb. unfold eqb. rewrite bool_decide_eq_true.
  split; [by intros ->|].
  destruct a as [i|], b as [j|]; simpl in *; [| | |done].
  - destruct Ha as [si Hsi], Hb as [sj Hsj]. rewrite Hsi, Hsj. simpl. intros <-.
    apply Hinv in Hsi, Hsj. congruence.
  - destruct Ha as [si Hsi]. rewrite Hsi. simpl. intros ->. by destruct (Hlt _ _ Hsi).
  - destruct Hb as [sj Hsj]. rewrite Hsj. simpl. intros <-. by destruct (Hlt _ _ Hsj).
Qed.

(** Interning is deduplicating: interning a text a second time returns the
    same name and leaves the table as the first call left it. *)
Lemma intern_idempotent s t :
  table_wf t -> intern s (intern s t).2 = intern s t.
Proof.
  intros Hwf. destruct (decide (s = [])) as [->|Hs]; [done|].
  destruct (by_text t !! s) as [i|] eqn:Hi.
  - rewrite (intern_found t s i Hs Hi). cbn [snd]. by rewrite (intern_found t s i Hs Hi).
  - rewrite (intern_new t s) by done. cbn [fst snd]. apply intern_found; [done|]. apply lookup_insert_eq.
Qed.

End InternTable.
