(* ===== verification/Instances.v ===== *)
(** * The collaborators' instances used by the concrete runs

    [text_marshal] discharges [MonoMarshal] with the conversion pair of
    the specification at its simplest: a managed string is represented by
    its text, so both conversions are the identity and every text is
    well formed.  How [GDMonoMarshal] encodes text as UTF-16 is neither in
    [src/] nor described by the specification, so no encoding is chosen
    here.  [intern_table_ops] discharges [StringNameOps] with the
    interning table of [StringName].  The glue's theorems are proved for
    every instance of the two classes; these instances are the ones the
    witnesses evaluate. *)

From S2P Require Import Prelude Marshal StringName.

(** ** The conversion pair: a managed string is its text *)

#[export] Instance text_marshal : MonoMarshal := {
  MonoString := list Z;
  mono_string_to_godot := fun m => m;
  mono_string_from_godot := fun s => s;
  godot_text_ok := fun _ => true;
  mono_text_ok := fun _ => true;
  marshal_to_ok := fun _ => eq_refl;
  marshal_from_ok := fun _ _ => eq_refl;
  marshal_to_from := fun _ _ => eq_refl;
  marshal_from_to := fun _ _ => eq_refl;
  marshal_to_nil := eq_refl
}.

(** ** The interning table *)

#[export] Instance intern_table_ops : StringNameOps := {
  sn_table := InternTable.table;
  StringName := InternTable.name;
  sn_default := None;
  sn_intern := InternTable.intern;
  sn_copy := InternTable.copy;
  sn_to_string := InternTable.to_string;
  sn_eqb := InternTable.eqb;
  sn_table_wf := InternTable.table_wf;
  sn_valid := InternTable.valid;
  sn_default_valid := fun _ => I;
  sn_default_string := fun _ => eq_refl;
  sn_intern_wf := InternTable.intern_wf;
  sn_intern_valid := InternTable.intern_valid;
  sn_intern_string := InternTable.intern_string;
  sn_intern_stable := InternTable.intern_stable;
  sn_intern_idem := InternTable.intern_idempotent;
  sn_copy_valid := fun _ _ H => H;
  sn_copy_string := fun _ _ => eq_refl;
  sn_eqb_spec := InternTable.eqb_text
}.
