(* ===== verification/Registry.v ===== *)
(** * The internal-call table of the managed runtime

    [GDMonoUtils::add_internal_call(name, fn)] forwards to Mono's
    [mono_add_internal_call], which records in a process-wide table that
    the managed method [name] is implemented by the native function [fn];
    a managed call to a method declared [extern] is resolved in this table
    by name.  The table is not in [src/]; the specification describes it as
    a map from fully qualified names to function references, filled once at
    initialisation.  A later binding of a name replaces the earlier one.
    The table is generic in the type of the functions it stores. *)

From S2P Require Import Prelude.

Module Registry.

Section Registry.
Context {F : Type}.

Definition add_internal_call (name : string) (fn : F) (r : gmap string F) : gmap string F :=
  <[name:=fn]> r.

(** The runtime's lookup of an internal call by name. *)
Definition resolve (name : string) (r : gmap string F) : option F := r !! name.

(** A sequence of registrations, in program order. *)
Definition add_internal_calls (l : list (string * F)) (r : gmap string F) : gmap string F :=
  foldl (fun acc nf => add_internal_call nf.1 nf.2 acc) r l.
End Registry.

(** ** Lemmas on registration sequences *)

Section RegistryLemmas.
Context {F : Type}.
Implicit Types (r : gmap string F) (l : list (string * F)).

Lemma add_internal_calls_app l1 l2 r :
  add_internal_calls (l1 ++ l2) r = add_internal_calls l2 (add_internal_calls l1 r).
Proof. apply foldl_app. Qed.

Lemma resolve_add_internal_calls_notin l r name :
  name ∉ l.*1 -> resolve name (add_internal_calls l r) = resolve name r.
Proof.
  revert r. induction l as [|[n f] l IH]; intros r Hn; [done|].
  simpl in *. rewrite IH by set_solver. unfold resolve, add_internal_call.
  rewrite lookup_insert_ne; [done|set_solver].
Qed.

(** With distinct names, every registered name resolves to its function. *)
Lemma resolve_add_internal_calls l r name fn :
  NoDup l.*1 -> (name, fn) ∈ l -> resolve name (add_internal_calls l r) = Some fn.
Proof.
  revert r. induction l as [|[n f] l IH]; intros r Hnd Hin; [set_solver|].
  simpl in *. apply NoDup_cons in Hnd as [Hn Hnd].
  apply elem_of_cons in Hin as [[= -> ->]|Hin].
  - rewrite resolve_add_internal_calls_notin by done.
  apply lookup_insert_eq.
  - by apply IH.
Qed.

Lemma dom_add_internal_calls l r :
  dom (add_internal_calls l r) = list_to_set l.*1 ∪ dom r.
Proof.
  revert r. induction l as [|[n f] l IH]; intros r; simpl; [set_solver|].
  rewrite IH. unfold add_internal_call. rewrite dom_insert_L. set_solver.
Qed.

(** Registering the same sequence twice is registering it once. *)
Lemma add_internal_calls_idem l r :
  NoDup l.*1 -> add_internal_calls l (add_internal_calls l r) = add_internal_calls l r.
Proof.
  intros Hnd. apply map_eq. intros name.
  change (resolve name (add_internal_calls l (add_internal_calls l r)) =
        resolve name (add_internal_calls l r)).
  destruct (decide (name ∈ l.*1)) as [Hin|Hout].
  - apply list_elem_of_fmap in Hin as ([n f] & -> & Hin). simpl.
  by rewrite !(resolve_add_internal_calls _ _ n f).
  - by rewrite resolve_add_internal_calls_notin.
Qed.
End RegistryLemmas.

End Registry.
