(* ===== verification/Header.v ===== *)
(** * The header [string_name_glue.h] and the translation unit

    [string_name_glue.h] is an include guard around a conditional group:
    when [MONO_GLUE_ENABLED] is defined it includes [string_name.h] and
    [gd_mono_marshal.h] and declares the six icalls and the registration
    routine.  [string_name_glue.cpp] includes the header and, under the
    same macro, includes [ustring.h] and defines the seven functions.
    Both files are written here as the preprocessor reads them: a list of
    directives ([PPItem]) whose declarations and definitions carry the C++
    prototype ([Proto]: return type, name, typed parameters).
    [pp_items] is the preprocessor: conditional groups on the set of
    defined macros, [#define], [#include] of a file of the repository
    (expanded, one unit of fuel per level of nesting) or of a file outside
    it (recorded), and the declarations and definitions collected in
    order.  [translate] runs it on [string_name_glue.cpp]. *)

From S2P Require Import Prelude.

Module Header.

(** The C++ types of the prototypes. *)
Inductive CType :=
| TStringNamePtr   (* [StringName *] *)
| TMonoStringPtr   (* [MonoString *] *)
| TMonoBoolean     (* [MonoBoolean] *)
| TVoid.           (* [void] *)

#[export] Instance CType_eq_dec : EqDecision CType.
Proof. solve_decision. Defined.

(** A prototype: return type, name, parameters with their names. *)
Record Proto := mk_proto {
  pr_ret : CType;
  pr_name : string;
  pr_params : list (CType * string)
}.

#[export] Instance Proto_eq_dec : EqDecision Proto.
Proof. solve_decision. Defined.

(** A source file as the preprocessor reads it. *)
Inductive PPItem :=
| PIfndef (m : string) (group : list PPItem)
| PIfdef (m : string) (group : list PPItem)
| PDefine (m : string)
| PInclude (file : string)
| PDecl (d : Proto)
| PFunDef (d : Proto).

(** [string_name_glue.h], lines 31-58. *)
Definition string_name_glue_h : list PPItem :=
  [PIfndef "STRING_NAME_GLUE_H"
    [PDefine "STRING_NAME_GLUE_H";
     PIfdef "MONO_GLUE_ENABLED"
       [PInclude "core/string/string_name.h";
        PInclude "../mono_gd/gd_mono_marshal.h";
        PDecl (mk_proto TStringNamePtr "godot_icall_StringName_Ctor" []);
        PDecl (mk_proto TStringNamePtr "godot_icall_StringName_String_Ctor"
                 [(TMonoStringPtr, "p_path")]);
        PDecl (mk_proto TStringNamePtr "godot_icall_StringName_StringName_Ctor"
                 [(TStringNamePtr, "p_path")]);
        PDecl (mk_proto TVoid "godot_icall_StringName_Dtor" [(TStringNamePtr, "p_ptr")]);
        PDecl (mk_proto TMonoStringPtr "godot_icall_StringName_operator_String"
                 [(TStringNamePtr, "p_np")]);
        PDecl (mk_proto TMonoBoolean "godot_icall_StringName_operator_Equals"
                 [(TStringNamePtr, "p_sn1"); (TStringNamePtr, "p_sn2")]);
        PDecl (mk_proto TVoid "godot_register_stringname_icalls" [])]]].

(** [string_name_glue.cpp], lines 31-72: the function bodies are the
    definitions of [Glue]; here each definition is its prototype. *)
Definition string_name_glue_cpp : list PPItem :=
  [PInclude "string_name_glue.h";
   PIfdef "MONO_GLUE_ENABLED"
     [PInclude "core/string/ustring.h";
      PFunDef (mk_proto TStringNamePtr "godot_icall_StringName_Ctor" []);
      PFunDef (mk_proto TStringNamePtr "godot_icall_StringName_String_Ctor"
                 [(TMonoStringPtr, "p_path")]);
      PFunDef (mk_proto TStringNamePtr "godot_icall_StringName_StringName_Ctor"
                 [(TStringNamePtr, "p_path")]);
      PFunDef (mk_proto TVoid "godot_icall_StringName_Dtor" [(TStringNamePtr, "p_ptr")]);
      PFunDef (mk_proto TMonoStringPtr "godot_icall_StringName_operator_String"
                 [(TStringNamePtr, "p_np")]);
      PFunDef (mk_proto TMonoBoolean "godot_icall_StringName_operator_Equals"
                 [(TStringNamePtr, "p_sn1"); (TStringNamePtr, "p_sn2")]);
      PFunDef (mk_proto TVoid "godot_register_stringname_icalls" [])]].

(** The files of the repository an [#include] can name. *)
Definition repo_sources (file : string) : option (list PPItem) :=
  if decide (file = "string_name_glue.h") then Some string_name_glue_h else None.

(** ** The preprocessor *)

Record PPState := mk_pp {
  pp_macros : gset string;
  pp_includes : list string;
  pp_decls : list Proto;
  pp_defs : list Proto
}.

Definition pp_define (m : string) (st : PPState) : PPState :=
  mk_pp ({[m]} ∪ pp_macros st) (pp_includes st) (pp_decls st) (pp_defs st).
Definition pp_include (f : string) (st : PPState) : PPState :=
  mk_pp (pp_macros st) (pp_includes st ++ [f]) (pp_decls st) (pp_defs st).
Definition pp_decl (d : Proto) (st : PPState) : PPState :=
  mk_pp (pp_macros st) (pp_includes st) (pp_decls st ++ [d]) (pp_defs st).
Definition pp_def (d : Proto) (st : PPState) : PPState :=
  mk_pp (pp_macros st) (pp_includes st) (pp_decls st) (pp_defs st ++ [d]).

(** Run [f] over a list, stopping at the first failure. *)
Fixpoint fold_opt {A B} (f : A -> B -> option A) (a : A) (l : list B) : option A :=
  match l with
  | [] => Some a
  | b :: l => match f a b with Some a' => fold_opt f a' l | None => None end
  end.

(** [pp_items fuel st items]: [fuel] bounds the depth of nested includes
    of repository files; running out is the [None] of an include nested
    too deeply. *)
Fixpoint pp_items (fuel : nat) (st : PPState) (items : list PPItem) : option PPState :=
  match fuel with
  | O => None
  | S fuel' =>
      let fix pp_item (st : PPState) (i : PPItem) {struct i} : option PPState :=
        match i with
        | PIfndef m g => if decide (m ∈ pp_macros st) then Some st else fold_opt pp_item st g
        | PIfdef m g => if decide (m ∈ pp_macros st) then fold_opt pp_item st g else Some st
        | PDefine m => Some (pp_define m st)
        | PInclude f =>
            match repo_sources f with
            | Some src => pp_items fuel' (pp_include f st) src
            | None => Some (pp_include f st)
            end
        | PDecl d => Some (pp_decl d st)
        | PFunDef d => Some (pp_def d st)
        end
      in fold_opt pp_item st items
  end.

(** Preprocessing [string_name_glue.cpp] with the macros of the build. *)
Definition translate (fuel : nat) (macros : gset string) : option PPState :=
  pp_items fuel (mk_pp macros [] [] []) string_name_glue_cpp.

Definition find_proto (name : string) (ps : list Proto) : option Proto :=
  head (filter (fun p => pr_name p = name) ps).

(** The prototypes the translation unit declares in the enabled build. *)
Definition glue_protos : list Proto :=
  default [] (pp_decls <$> translate 2 {["MONO_GLUE_ENABLED"]}).

(** ** Lemmas *)

Lemma fold_opt_app {A B} (f : A -> B -> option A) a l1 l2 :
  fold_opt f a (l1 ++ l2) = fold_opt f a l1 ≫= fun a' => fold_opt f a' l2.
Proof.
  revert a. induction l1 as [|b l1 IH]; intros a; [done|]. simpl.
  destruct (f a b); [apply IH|done].
Qed.

(** Preprocessing two pieces of text in sequence. *)
Lemma pp_items_app n st l1 l2 :
  pp_items (S n) st (l1 ++ l2) = pp_items (S n) st l1 ≫= fun st' => pp_items (S n) st' l2.
Proof. apply fold_opt_app. Qed.

(** The first inclusion of the header defines its guard. *)
Lemma pp_header_first n st :
  "STRING_NAME_GLUE_H" ∉ pp_macros st ->
  exists st', pp_items (S n) st string_name_glue_h = Some st' /\ "STRING_NAME_GLUE_H" ∈ pp_macros st'.
Proof.
  intros Hg. simpl. rewrite decide_False by done. simpl.
  case_decide; simpl; eexists; (split; [reflexivity|]); simpl; set_solver.
Qed.

(** Once the guard is defined the header adds nothing. *)
Lemma pp_header_guarded n st :
  "STRING_NAME_GLUE_H" ∈ pp_macros st -> pp_items (S n) st string_name_glue_h = Some st.
Proof. intros Hg. simpl. by rewrite decide_True. Qed.

(** The files the enabled build includes, in order. *)
Definition enabled_includes : list string :=
  ["string_name_glue.h"; "core/string/string_name.h"; "../mono_gd/gd_mono_marshal.h";
   "core/string/ustring.h"].

(** ** Theorems *)

(** C15: The include guard.  Including [string_name_glue.h] a second time
  after a first inclusion changes nothing: no prototype is declared twice,
  whatever macros were defined before. *)
Theorem include_guard_idempotent n st :
  "STRING_NAME_GLUE_H" ∉ pp_macros st ->
  pp_items (S n) st (string_name_glue_h ++ string_name_glue_h) = pp_items (S n) st string_name_glue_h.
Proof.
  intros Hg. destruct (pp_header_first n st Hg) as (st' & H1 & H2).
  rewrite pp_items_app, H1. exact (pp_header_guarded n st' H2).
Qed.

(** C14: The two builds.  With [MONO_GLUE_ENABLED] defined, the translation
  unit includes the header and its three dependencies, and defines exactly
  the functions the header declares, with the same prototypes, in the same
  order.  Without it, the unit includes the header only and declares and
  defines nothing, so no icall and no registration routine exist. *)
Theorem translate_build macros :
  "STRING_NAME_GLUE_H" ∉ macros ->
  translate 2 macros =
  if decide ("MONO_GLUE_ENABLED" ∈ macros)
  then Some (mk_pp ({["STRING_NAME_GLUE_H"]} ∪ macros) enabled_includes glue_protos glue_protos)
  else Some (mk_pp ({["STRING_NAME_GLUE_H"]} ∪ macros) ["string_name_glue.h"] [] []).
Proof.
  intros Hg. unfold translate. simpl. rewrite decide_False by done. simpl.
  case_decide as Hm.
  - rewrite !decide_True by set_solver. reflexivity.
  - rewrite !decide_False by set_solver. reflexivity.
Qed.

(** Preprocessing terminates with a result for every set of macros
  once two levels of includes are allowed ([.cpp] and the header), and
  more fuel gives the same result; with one level the include of the
  header runs out. *)
Lemma translate_fuel n macros :
  is_Some (translate 2 macros) /\ translate (S (S n)) macros = translate 2 macros /\
  translate 1 macros = None.
Proof.
  split_and!; [|reflexivity|reflexivity].
  unfold translate. simpl. repeat case_decide; simpl; by eexists.
Qed.

End Header.

(** ** Runs on the enabled build *)

Module HeaderRuns.
Import Header.

Local Notation st_enabled := (mk_pp {["MONO_GLUE_ENABLED"]} [] [] []) (only parsing).

Lemma include_guard_idempotent_witness :
  "STRING_NAME_GLUE_H" ∉ pp_macros st_enabled /\
  pp_items 1 st_enabled (string_name_glue_h ++ string_name_glue_h) =
  pp_items 1 st_enabled string_name_glue_h.
Proof.
  assert (Hg : "STRING_NAME_GLUE_H" ∉ pp_macros st_enabled) by (simpl; set_solver).
  split; [exact Hg|]. exact (include_guard_idempotent 0 st_enabled Hg).
Defined.

Lemma translate_build_witness :
  "STRING_NAME_GLUE_H" ∉ ({["MONO_GLUE_ENABLED"]} : gset string) /\
  translate 2 {["MONO_GLUE_ENABLED"]} =
  Some (mk_pp ({["STRING_NAME_GLUE_H"]} ∪ {["MONO_GLUE_ENABLED"]}) enabled_includes glue_protos glue_protos).
Proof.
  assert (Hg : "STRING_NAME_GLUE_H" ∉ ({["MONO_GLUE_ENABLED"]} : gset string)) by set_solver.
  split; [exact Hg|].
  pose proof (translate_build {["MONO_GLUE_ENABLED"]} Hg) as Hb.
  rewrite decide_True in Hb by set_solver. exact Hb.
Defined.

End HeaderRuns.
