(* ===== verification/Glue.v ===== *)
(** * The StringName glue: [src/glue/string_name_glue.cpp]

    The six internal calls and their registration, written against the two
    contracts of the collaborators: [MonoMarshal] (marshalling) and
    [StringNameOps] (the interned-string type).  The native state the glue
    touches is [GlueState]: the heap of [StringName] objects created with
    [memnew] and the interning table.  Each icall is a computation of the
    outcome monad of [Prelude]:
    - a null or dangling [StringName *] that the code dereferences is
      undefined behaviour ([UB]);
    - [ERR_FAIL_NULL(p_ptr)] reports [ErrNullParam "p_ptr"] and returns
      before [memdelete] ([Fail], state unchanged).
    The registration routine binds each icall to its symbolic name in the
    runtime's table; how the managed side reaches the icalls through that
    table is in [Managed].  Besides the behaviour of each icall, the
    theorems cover the invariant's preservation, allocation and release,
    and value equality.  Module [GlueRuns] runs the icalls with
    [text_marshal] and the interning table. *)

From S2P Require Import Prelude Memory Marshal StringName Registry Instances.

Module Glue.
Import Memory.

(** The six internal calls declared in [string_name_glue.h]. *)
Inductive ICall :=
| ICall_StringName_Ctor
| ICall_StringName_String_Ctor
| ICall_StringName_StringName_Ctor
| ICall_StringName_Dtor
| ICall_StringName_operator_String
| ICall_StringName_operator_Equals.

#[export] Instance ICall_eq_dec : EqDecision ICall.
Proof. solve_decision. Defined.

(** The symbolic names under which [godot_register_stringname_icalls]
    registers them. *)
Definition icall_name (c : ICall) : string :=
  match c with
  | ICall_StringName_Ctor => "Godot.StringName::godot_icall_StringName_Ctor"
  | ICall_StringName_String_Ctor => "Godot.StringName::godot_icall_StringName_String_Ctor"
  | ICall_StringName_StringName_Ctor => "Godot.StringName::godot_icall_StringName_StringName_Ctor"
  | ICall_StringName_Dtor => "Godot.StringName::godot_icall_StringName_Dtor"
  | ICall_StringName_operator_String => "Godot.StringName::godot_icall_StringName_operator_String"
  | ICall_StringName_operator_Equals => "Godot.StringName::godot_icall_StringName_operator_Equals"
  end.

(** The native function each registration passes, by its C identifier
    (the second argument of [add_internal_call]). *)
Definition icall_symbol (c : ICall) : string :=
  match c with
  | ICall_StringName_Ctor => "godot_icall_StringName_Ctor"
  | ICall_StringName_String_Ctor => "godot_icall_StringName_String_Ctor"
  | ICall_StringName_StringName_Ctor => "godot_icall_StringName_StringName_Ctor"
  | ICall_StringName_Dtor => "godot_icall_StringName_Dtor"
  | ICall_StringName_operator_String => "godot_icall_StringName_operator_String"
  | ICall_StringName_operator_Equals => "godot_icall_StringName_operator_Equals"
  end.

(** The registrations, in the order of the source. *)
Definition stringname_icalls : list (string * ICall) :=
  map (fun c => (icall_name c, c))
    [ICall_StringName_Ctor; ICall_StringName_String_Ctor; ICall_StringName_StringName_Ctor;
     ICall_StringName_Dtor; ICall_StringName_operator_String; ICall_StringName_operator_Equals].

Definition godot_register_stringname_icalls (r : gmap string ICall) : gmap string ICall :=
  Registry.add_internal_calls stringname_icalls r.

(** [MonoBoolean] is an unsigned byte; the cast of a C++ [bool] gives 1 or 0. *)
Definition MonoBoolean := Z.
Definition mono_boolean_of_bool (b : bool) : MonoBoolean := if b then 1%Z else 0%Z.

(** The one error the glue reports: [ERR_FAIL_NULL(p_ptr)] prints
    [Parameter "p_ptr" is null.] and returns. *)
Inductive GlueError :=
| ErrNullParam (param : string).

Section GlueOps.
Context `{MonoMarshal} `{StringNameOps}.
Local Open Scope glue_scope.

Record GlueState := mk_state {
  gs_heap : heap (StringName _);
  gs_table : sn_table _
}.

Definition GM (A : Type) := M GlueState GlueError A.

(** [memnew(StringName(..))] once the value is built. *)
Definition alloc_name (n : StringName _) : GM ptr :=
  fun s => let '(p, h') := memnew n (gs_heap s) in Ok p (mk_state h' (gs_table s)).

(** [*p]: reading the object behind a [StringName *]. *)
Definition read_name (p : ptr) : GM (StringName _) :=
  lift_opt (fun s => deref p (gs_heap s)).

(** [StringName(const String &)]: interning the text in the table. *)
Definition intern_text (str : GodotString) : GM (StringName _) :=
  fun s => let '(n, t') := sn_intern str (gs_table s) in Ok n (mk_state (gs_heap s) t').

Definition read_table : GM (sn_table _) := fun s => Ok (gs_table s) s.

(** [memdelete(p)]. *)
Definition free_name (p : ptr) : GM unit :=
  fun s => match memdelete p (gs_heap s) with
           | Some h' => Ok tt (mk_state h' (gs_table s))
           | None => UB
           end.

(** [ERR_FAIL_NULL(m_param)]: report and return when the pointer is null. *)
Definition err_fail_null (p : ptr) (param : string) : GM unit :=
  if decide (p = nullptr) then fail (ErrNullParam param) else ret tt.

Definition godot_icall_StringName_Ctor : GM ptr :=
  alloc_name sn_default.

Definition godot_icall_StringName_String_Ctor (p_path : MonoString _) : GM ptr :=
  n <- intern_text (mono_string_to_godot p_path) ;;
  alloc_name n.

Definition godot_icall_StringName_StringName_Ctor (p_path : ptr) : GM ptr :=
  n <- read_name p_path ;;
  alloc_name (sn_copy n).

Definition godot_icall_StringName_Dtor (p_ptr : ptr) : GM unit :=
  err_fail_null p_ptr "p_ptr" ;;;
  free_name p_ptr.

Definition godot_icall_StringName_operator_String (p_np : ptr) : GM (MonoString _) :=
  n <- read_name p_np ;;
  t <- read_table ;;
  ret (mono_string_from_godot (sn_to_string t n)).

Definition godot_icall_StringName_operator_Equals (p_sn1 p_sn2 : ptr) : GM MonoBoolean :=
  a <- read_name p_sn1 ;;
  b <- read_name p_sn2 ;;
  ret (mono_boolean_of_bool (sn_eqb a b)).

(** ** The state invariant *)

(** The heap is well formed, so is the table, and every object on the
    heap is a name the table knows. *)
Definition glue_wf (s : GlueState) : Prop :=
  heap_wf (gs_heap s) /\ sn_table_wf (gs_table s) /\
  forall p n, deref p (gs_heap s) = Some n -> sn_valid (gs_table s) n.
End GlueOps.

(** ** Registration *)

Lemma stringname_icalls_NoDup : NoDup stringname_icalls.*1.
Proof. apply (bool_decide_unpack _). vm_compute. reflexivity. Qed.

Lemma stringname_icalls_elem c : (icall_name c, c) ∈ stringname_icalls.
Proof. apply list_elem_of_In, in_map_iff. exists c. split; [done|]. destruct c; simpl; tauto. Qed.

(** C13: [godot_register_stringname_icalls] binds exactly six distinct names,
  each [Godot.StringName::<icall>] resolving to that icall, and calling it
  a second time changes nothing. *)
Theorem register_stringname_icalls_spec :
size (godot_register_stringname_icalls ∅) = 6 /\
NoDup stringname_icalls.*1 /\
(forall c, Registry.resolve (icall_name c) (godot_register_stringname_icalls ∅) = Some c) /\
(forall r, godot_register_stringname_icalls (godot_register_stringname_icalls r) =
           godot_register_stringname_icalls r).
Proof.
split_and!.
- reflexivity.
- apply stringname_icalls_NoDup.
- intros c. apply Registry.resolve_add_internal_calls;
    [apply stringname_icalls_NoDup|apply stringname_icalls_elem].
- intros r. apply Registry.add_internal_calls_idem, stringname_icalls_NoDup.
Qed.

(** ** Behaviour of each call *)

Section GlueLemmas.
Context `{MonoMarshal} `{StringNameOps}.
Local Open Scope glue_scope.
Implicit Types (s : GlueState) (p q : ptr).

Lemma alloc_name_run n h t :
  alloc_name n (mk_state h t) = Ok (next_addr h) (mk_state (memnew n h).2 t).
Proof. reflexivity. Qed.

Lemma read_name_run p h t :
  read_name p (mk_state h t) =
  match deref p h with Some n => Ok n (mk_state h t) | None => UB end.
Proof. reflexivity. Qed.

Lemma ctor_run h t :
  godot_icall_StringName_Ctor (mk_state h t) =
  Ok (next_addr h) (mk_state (memnew sn_default h).2 t).
Proof. reflexivity. Qed.

Lemma string_ctor_run m h t :
  godot_icall_StringName_String_Ctor m (mk_state h t) =
  Ok (next_addr h)
     (mk_state (memnew (sn_intern (mono_string_to_godot m) t).1 h).2
               (sn_intern (mono_string_to_godot m) t).2).
Proof.
  unfold godot_icall_StringName_String_Ctor, bind, intern_text. simpl.
  by destruct (sn_intern (mono_string_to_godot m) t).
Qed.

Lemma copy_ctor_run q h t :
  godot_icall_StringName_StringName_Ctor q (mk_state h t) =
  match deref q h with
  | Some n => Ok (next_addr h) (mk_state (memnew (sn_copy n) h).2 t)
  | None => UB
  end.
Proof.
  unfold godot_icall_StringName_StringName_Ctor, bind, read_name, lift_opt. simpl.
  by destruct (deref q h).
Qed.

Lemma dtor_run q h t :
  godot_icall_StringName_Dtor q (mk_state h t) =
  if decide (q = nullptr) then Fail (ErrNullParam "p_ptr") (mk_state h t)
  else match memdelete q h with
       | Some h' => Ok tt (mk_state h' t)
       | None => UB
       end.
Proof.
  unfold godot_icall_StringName_Dtor, err_fail_null, bind.
  by case_decide.
Qed.

Lemma to_string_run q h t :
  godot_icall_StringName_operator_String q (mk_state h t) =
  match deref q h with
  | Some n => Ok (mono_string_from_godot (sn_to_string t n)) (mk_state h t)
  | None => UB
  end.
Proof.
  unfold godot_icall_StringName_operator_String, bind, read_name, lift_opt. simpl.
  by destruct (deref q h).
Qed.

Lemma equals_run q1 q2 h t :
  godot_icall_StringName_operator_Equals q1 q2 (mk_state h t) =
  match deref q1 h, deref q2 h with
  | Some a, Some b => Ok (mono_boolean_of_bool (sn_eqb a b)) (mk_state h t)
  | _, _ => UB
  end.
Proof.
  unfold godot_icall_StringName_operator_Equals, bind, read_name, lift_opt. simpl.
  destruct (deref q1 h); simpl; [destruct (deref q2 h)|]; done.
Qed.

(** ** Preservation of the invariant by the primitive steps *)

Lemma glue_wf_memnew n h t :
  glue_wf (mk_state h t) -> sn_valid t n -> glue_wf (mk_state (memnew n h).2 t).
Proof.
  intros (Hh & Ht & Hn) Hv. split_and!; cbn [gs_heap gs_table]; [by apply memnew_wf|done|].
  intros p n'. destruct (decide (p = (memnew n h).1)) as [->|Hne].
  - rewrite deref_memnew_eq. by intros [= <-].
  - rewrite deref_memnew_ne by done. apply Hn.
Qed.

Lemma glue_wf_intern str h t :
  glue_wf (mk_state h t) -> glue_wf (mk_state h (sn_intern str t).2).
Proof.
  intros (Hh & Ht & Hn). split_and!; cbn [gs_heap gs_table]; [done|by apply sn_intern_wf|].
  intros p n Hp. apply sn_intern_stable; [done|]. by apply (Hn p).
Qed.

Lemma glue_wf_memdelete q h h' t :
  glue_wf (mk_state h t) -> memdelete q h = Some h' -> glue_wf (mk_state h' t).
Proof.
  intros (Hh & Ht & Hn) Hd. split_and!; cbn [gs_heap gs_table]; [by eapply memdelete_wf|done|].
  intros p n. rewrite (deref_memdelete q h h' p Hd). case_decide; [done|]. apply Hn.
Qed.

Lemma glue_wf_deref_valid h t q n :
  glue_wf (mk_state h t) -> deref q h = Some n -> sn_valid t n.
Proof. intros (_ & _ & Hn). apply Hn. Qed.
Lemma glue_wf_valid_after s q n :
  glue_wf s -> deref q (gs_heap s) = Some n -> sn_valid (gs_table s) n.
Proof. intros (_ & _ & Hn). apply Hn. Qed.

(** ** Every call keeps the invariant *)

Lemma ctor_preserves : preserves glue_wf godot_icall_StringName_Ctor.
Proof.
  intros [h t] Hwf. rewrite ctor_run. apply glue_wf_memnew; [done|apply sn_default_valid].
Qed.

Lemma string_ctor_preserves m : preserves glue_wf (godot_icall_StringName_String_Ctor m).
Proof.
  intros [h t] Hwf. rewrite string_ctor_run.
  apply glue_wf_memnew; [by apply glue_wf_intern|]. apply sn_intern_valid, Hwf.
Qed.

Lemma copy_ctor_preserves q : preserves glue_wf (godot_icall_StringName_StringName_Ctor q).
Proof.
  intros [h t] Hwf. rewrite copy_ctor_run. destruct (deref q h) as [n|] eqn:Hq; [|done].
  apply glue_wf_memnew; [done|]. apply sn_copy_valid. by eapply glue_wf_deref_valid.
Qed.

Lemma dtor_preserves q : preserves glue_wf (godot_icall_StringName_Dtor q).
Proof.
  intros [h t] Hwf. rewrite dtor_run. case_decide; [done|].
  destruct (memdelete q h) eqn:Hd; [|done]. by eapply glue_wf_memdelete.
Qed.

Lemma to_string_preserves q : preserves glue_wf (godot_icall_StringName_operator_String q).
Proof. intros [h t] Hwf. rewrite to_string_run. by destruct (deref q h). Qed.

Lemma equals_preserves q1 q2 : preserves glue_wf (godot_icall_StringName_operator_Equals q1 q2).
Proof. intros [h t] Hwf. rewrite equals_run. by destruct (deref q1 h), (deref q2 h). Qed.


Lemma init_state_wf t : sn_table_wf t -> glue_wf (mk_state empty_heap t).
Proof.
  intros Ht. split_and!; [apply empty_heap_wf|done|].
  intros p n Hp. unfold deref in Hp. simpl in Hp. by rewrite lookup_empty in Hp.
Qed.

(** Two names read back from a well-formed state compare as their texts. *)
Lemma eqb_bool_decide t a b :
  sn_table_wf t -> sn_valid t a -> sn_valid t b ->
  sn_eqb a b = bool_decide (sn_to_string t a = sn_to_string t b).
Proof.
  intros Ht Ha Hb. pose proof (sn_eqb_spec t a b Ht Ha Hb) as Hs.
  case_bool_decide; destruct (sn_eqb a b); naive_solver.
Qed.

(** Creating a StringName from any managed string and converting it
  back gives the re-encoding of its decoded text. *)
Lemma string_ctor_operator_String_any s m :
  glue_wf s ->
  exists s', godot_icall_StringName_String_Ctor m s = Ok (next_addr (gs_heap s)) s' /\
  godot_icall_StringName_operator_String (next_addr (gs_heap s)) s' =
    Ok (mono_string_from_godot (mono_string_to_godot m)) s'.
Proof.
  destruct s as [h t]. intros Hwf. rewrite string_ctor_run. eexists. split; [done|].
  rewrite to_string_run. cbn [gs_heap]. rewrite deref_memnew_next.
  by rewrite sn_intern_string by apply Hwf.
Qed.

(** C1: Creating a StringName from a well-formed managed string and
  converting it back gives the same managed string
  ([To-text(Create-from-text(T)) == T]); the handle is the next address
  of the heap and the conversion leaves the state unchanged. *)
Theorem string_ctor_operator_String_roundtrip s m :
  glue_wf s -> mono_text_ok m = true ->
  exists s', godot_icall_StringName_String_Ctor m s = Ok (next_addr (gs_heap s)) s' /\
           godot_icall_StringName_operator_String (next_addr (gs_heap s)) s' = Ok m s'.
Proof.
  intros Hwf Hm. destruct (string_ctor_operator_String_any s m Hwf) as (s' & H1 & H2).
  exists s'. split; [done|]. by rewrite H2, marshal_from_to.
Qed.

(** C4: A copy of a live handle compares equal to it
  ([Equals(H, Create-copy(H)) == true], the [MonoBoolean] 1). *)
Theorem copy_ctor_equals s p n :
  glue_wf s -> deref p (gs_heap s) = Some n ->
  exists s', godot_icall_StringName_StringName_Ctor p s = Ok (next_addr (gs_heap s)) s' /\
           godot_icall_StringName_operator_Equals p (next_addr (gs_heap s)) s' = Ok 1%Z s'.
Proof.
  destruct s as [h t]. cbn [gs_heap]. intros Hwf Hp. rewrite copy_ctor_run, Hp.
  eexists. split; [done|]. rewrite equals_run.
  rewrite deref_memnew_next, deref_memnew_live, Hp by (apply Hwf || by eexists).
  pose proof (glue_wf_deref_valid h t p n Hwf Hp) as Hv.
  rewrite (eqb_bool_decide t) by (apply Hwf || done || by apply sn_copy_valid).
  by rewrite sn_copy_string, bool_decide_eq_true_2.
Qed.

(** C18: The empty-text boundary.  A StringName created from a managed
  string whose text is empty is equal to a default-constructed one and
  converts back to the encoding of the empty string, as the default
  does: [StringName()] and [StringName(String())] are the same value. *)
Theorem string_ctor_empty_is_default s m p1 s1 p2 s2 :
  glue_wf s -> mono_string_to_godot m = [] ->
  godot_icall_StringName_Ctor s = Ok p1 s1 ->
  godot_icall_StringName_String_Ctor m s1 = Ok p2 s2 ->
  godot_icall_StringName_operator_Equals p1 p2 s2 = Ok 1%Z s2 /\
  godot_icall_StringName_operator_String p2 s2 = Ok (mono_string_from_godot []) s2.
Proof.
  intros Hwf Hm Hc Hs.
  pose proof (ctor_preserves s Hwf) as Hwf1. rewrite Hc in Hwf1.
  destruct s as [h t]. rewrite ctor_run in Hc. injection Hc as <- <-.
  rewrite string_ctor_run, Hm in Hs. injection Hs as <- <-.
  destruct Hwf1 as (Hh1 & Ht1 & Hv1). cbn [gs_heap gs_table] in *.
  pose proof (sn_intern_valid [] t Ht1) as Hvn.
  pose proof (sn_intern_string [] t Ht1) as Hsn.
  pose proof (sn_intern_stable [] t sn_default Ht1 (sn_default_valid t)) as [Hvd Hsd].
  rewrite equals_run, to_string_run. unfold deref. cbn [cells].
  rewrite lookup_insert_ne, lookup_insert_eq, lookup_insert_eq by (cbn; lia).
  split; [|by rewrite Hsn].
  rewrite (eqb_bool_decide (sn_intern [] t).2) by (done || by apply sn_intern_wf).
  by rewrite Hsn, Hsd, sn_default_string.
Qed.

(** C17: A default-constructed StringName converts to the managed
  encoding of the empty Godot string. *)
Theorem ctor_operator_String_empty s :
  glue_wf s ->
  exists s', godot_icall_StringName_Ctor s = Ok (next_addr (gs_heap s)) s' /\
  godot_icall_StringName_operator_String (next_addr (gs_heap s)) s' =
    Ok (mono_string_from_godot []) s'.
Proof.
  destruct s as [h t]. intros Hwf. rewrite ctor_run. eexists. split; [done|].
  rewrite to_string_run. cbn [gs_heap]. rewrite deref_memnew_next.
  by rewrite sn_default_string.
Qed.

(** C3: Two StringNames created from managed strings compare equal
  exactly when the strings marshal to the same Godot text; the result
  does not depend on which one was created first. *)
Theorem string_ctor_equals_iff_text s m1 m2 p1 s1 p2 s2 :
  glue_wf s ->
  godot_icall_StringName_String_Ctor m1 s = Ok p1 s1 ->
  godot_icall_StringName_String_Ctor m2 s1 = Ok p2 s2 ->
  godot_icall_StringName_operator_Equals p1 p2 s2 =
  Ok (mono_boolean_of_bool (bool_decide (mono_string_to_godot m1 = mono_string_to_godot m2))) s2 /\
  godot_icall_StringName_operator_Equals p2 p1 s2 =
  Ok (mono_boolean_of_bool (bool_decide (mono_string_to_godot m1 = mono_string_to_godot m2))) s2.
Proof.
  destruct s as [h t]. intros Hwf Hc1 Hc2. destruct Hwf as (Hh & Ht & _).
  rewrite string_ctor_run in Hc1. injection Hc1 as <- <-.
  rewrite string_ctor_run in Hc2. injection Hc2 as <- <-.
  destruct (sn_intern (mono_string_to_godot m1) t) as [n1 t1] eqn:E1.
  pose proof (sn_intern_valid (mono_string_to_godot m1) t Ht) as Hv1.
  pose proof (sn_intern_string (mono_string_to_godot m1) t Ht) as Hs1.
  pose proof (sn_intern_wf (mono_string_to_godot m1) t Ht) as Ht1.
  rewrite E1 in Hv1, Hs1, Ht1. cbn [fst snd] in *.
  destruct (sn_intern (mono_string_to_godot m2) t1) as [n2 t2] eqn:E2.
  pose proof (sn_intern_stable (mono_string_to_godot m2) t1 n1 Ht1 Hv1) as [Hv1' Hs1'].
  pose proof (sn_intern_valid (mono_string_to_godot m2) t1 Ht1) as Hv2.
  pose proof (sn_intern_string (mono_string_to_godot m2) t1 Ht1) as Hs2.
  pose proof (sn_intern_wf (mono_string_to_godot m2) t1 Ht1) as Ht2.
  rewrite E2 in Hv1', Hs1', Hv2, Hs2, Ht2. cbn [fst snd] in *.
  rewrite !equals_run. unfold deref. cbn [cells].
  rewrite lookup_insert_eq, lookup_insert_ne, lookup_insert_eq by lia.
  rewrite !(eqb_bool_decide t2) by done. rewrite Hs1', Hs1, Hs2.
  split; [done|]. do 2 f_equal. apply bool_decide_ext. split; congruence.
Qed.

(** C6: Destroying a handle twice is undefined behaviour on the second
  call: the first [memdelete] released the object. *)
Theorem dtor_twice_undefined s p s' :
  glue_wf s ->
  godot_icall_StringName_Dtor p s = Ok tt s' ->
  godot_icall_StringName_Dtor p s' = UB.
Proof.
  destruct s as [h t]. intros Hwf Hd. rewrite dtor_run in Hd.
  case_decide as Hnull; [done|].
  destruct (memdelete p h) as [h'|] eqn:Hdel; [|done]. injection Hd as <-.
  rewrite dtor_run, decide_False by done. rewrite memdelete_None; [done|].
  pose proof (deref_memdelete p h h' p Hdel) as Hp. rewrite decide_True in Hp by done. exact Hp.
Qed.

(** C5: The null-handle paths.  [godot_icall_StringName_Dtor(nullptr)]
  is caught by [ERR_FAIL_NULL]: the error is reported and the state is
  unchanged.  The copy constructor, [operator_String] and
  [operator_Equals] have no such guard: on a null handle they
  dereference null, which is undefined behaviour. *)
Theorem null_handle_paths s q :
  glue_wf s ->
  godot_icall_StringName_Dtor nullptr s = Fail (ErrNullParam "p_ptr") s /\
  godot_icall_StringName_StringName_Ctor nullptr s = UB /\
  godot_icall_StringName_operator_String nullptr s = UB /\
  godot_icall_StringName_operator_Equals nullptr q s = UB /\
  godot_icall_StringName_operator_Equals q nullptr s = UB.
Proof.
  destruct s as [h t]. intros (Hh & _ & _).
  pose proof (deref_null h Hh) as Hn.
  rewrite dtor_run, copy_ctor_run, to_string_run, !equals_run, Hn, decide_True by done.
  split_and!; try done. by destruct (deref q h).
Qed.

(** C11: Each of the three constructors allocates exactly one new native
  object: the returned handle is non-null, was not live before, is live
  after, the number of live objects grows by one and every other handle
  reads as before. *)
Theorem create_allocates_fresh s p s' :
  glue_wf s ->
  (godot_icall_StringName_Ctor s = Ok p s' \/
   (exists m, godot_icall_StringName_String_Ctor m s = Ok p s') \/
   (exists q, godot_icall_StringName_StringName_Ctor q s = Ok p s')) ->
  p <> nullptr /\ deref p (gs_heap s) = None /\ is_Some (deref p (gs_heap s')) /\
  live_count (gs_heap s') = S (live_count (gs_heap s)) /\
  forall q, q <> p -> deref q (gs_heap s') = deref q (gs_heap s).
Proof.
  destruct s as [h t]. intros (Hh & _ & _) Hrun. cbn [gs_heap].
  assert (exists n t', p = next_addr h /\ s' = mk_state (memnew n h).2 t') as (n & t' & -> & ->).
  { destruct Hrun as [Hr|[[m Hr]|[q Hr]]].
  - rewrite ctor_run in Hr. injection Hr as <- <-. by eexists _, _.
  - rewrite string_ctor_run in Hr. injection Hr as <- <-. by eexists _, _.
  - rewrite copy_ctor_run in Hr. destruct (deref q h); [|done].
    injection Hr as <- <-. by eexists _, _. }
  destruct (memnew_spec n h Hh) as (Hnn & Hfree & Hnew & Hcount & Hother).
  cbn [gs_heap]. split_and!; try done. all: by rewrite Hnew.
Qed.

(** C12: Destroying a live handle releases exactly that object: it is no
  longer live, the live count drops by one, every other handle and the
  interning table are unchanged. *)
Theorem dtor_releases s p n :
  glue_wf s -> deref p (gs_heap s) = Some n ->
  exists s', godot_icall_StringName_Dtor p s = Ok tt s' /\
  deref p (gs_heap s') = None /\
  S (live_count (gs_heap s')) = live_count (gs_heap s) /\
  (forall q, q <> p -> deref q (gs_heap s') = deref q (gs_heap s)) /\
  gs_table s' = gs_table s.
Proof.
  destruct s as [h t]. cbn [gs_heap gs_table]. intros (Hh & _ & _) Hp.
  assert (Hnn : p <> nullptr) by (intros ->; by rewrite deref_null in Hp).
  rewrite dtor_run, decide_False by done.
  rewrite memdelete_Some by (unfold deref in Hp; by eexists).
  eexists. split; [done|]. cbn [gs_heap gs_table].
  set (h' := mk_heap (delete p (cells h)) (next_addr h)).
  assert (Hd : memdelete p h = Some h') by (apply memdelete_Some; unfold deref in Hp; by eexists).
  split_and!; [| by apply (live_count_memdelete p) | |done].
  - rewrite (deref_memdelete p h h' p Hd). by rewrite decide_True.
  - intros q Hq. rewrite (deref_memdelete p h h' q Hd). by rewrite decide_False.
Qed.

End GlueLemmas.

#[export] Hint Resolve ctor_preserves string_ctor_preserves copy_ctor_preserves
  dtor_preserves to_string_preserves equals_preserves : glue.

End Glue.

(** ** Runs on [text_marshal] and the interning table *)

Module GlueRuns.
Import Memory Glue.
Local Open Scope Z_scope.

Local Notation s0 :=
  (@mk_state intern_table_ops empty_heap InternTable.empty_table) (only parsing).
Local Notation run_state r s := (match r with Ok _ s' => s' | _ => s end) (only parsing).

Lemma s0_wf : glue_wf s0.
Proof. apply init_state_wf, InternTable.empty_table_wf. Qed.

Lemma string_ctor_operator_String_roundtrip_witness :
  glue_wf s0 /\ @mono_text_ok text_marshal [0xD83D; 0xDE00] = true /\
  exists s', godot_icall_StringName_String_Ctor (H:=text_marshal) [0xD83D; 0xDE00] s0 = Ok 1%N s' /\
godot_icall_StringName_operator_String (H:=text_marshal) 1%N s' = Ok [0xD83D; 0xDE00] s'.
Proof.
  split; [apply s0_wf|]. split; [reflexivity|].
  exact (string_ctor_operator_String_roundtrip s0 [0xD83D; 0xDE00] s0_wf eq_refl).
Defined.

Local Notation s1 := (run_state (godot_icall_StringName_Ctor s0) s0) (only parsing).

Lemma s1_wf : glue_wf s1.
Proof. exact (ctor_preserves s0 s0_wf). Qed.

Lemma copy_ctor_equals_witness :
  glue_wf s1 /\ deref 1%N (gs_heap s1) = Some None /\
  exists s', godot_icall_StringName_StringName_Ctor 1%N s1 = Ok (next_addr (gs_heap s1)) s' /\
godot_icall_StringName_operator_Equals 1%N (next_addr (gs_heap s1)) s' = Ok 1 s'.
Proof.
  split; [apply s1_wf|]. split; [reflexivity|].
  exact (copy_ctor_equals s1 1%N None s1_wf eq_refl).
Defined.

Lemma ctor_operator_String_empty_witness :
  glue_wf s0 /\
  exists s', godot_icall_StringName_Ctor s0 = Ok (next_addr (gs_heap s0)) s' /\
godot_icall_StringName_operator_String (H:=text_marshal) (next_addr (gs_heap s0)) s' =
  Ok (mono_string_from_godot []) s'.
Proof. split; [apply s0_wf|]. exact (ctor_operator_String_empty s0 s0_wf). Defined.

Local Notation sA := (run_state (godot_icall_StringName_String_Ctor (H:=text_marshal) [0x41] s0) s0)
  (only parsing).
Local Notation sB := (run_state (godot_icall_StringName_String_Ctor (H:=text_marshal) [0x42] sA) sA)
  (only parsing).

Lemma string_ctor_equals_iff_text_witness :
  glue_wf s0 /\
  godot_icall_StringName_String_Ctor (H:=text_marshal) [0x41] s0 = Ok 1%N sA /\
  godot_icall_StringName_String_Ctor (H:=text_marshal) [0x42] sA = Ok 2%N sB /\
  godot_icall_StringName_operator_Equals 1%N 2%N sB =
Ok (mono_boolean_of_bool (bool_decide (@mono_string_to_godot text_marshal [0x41] =
                                       @mono_string_to_godot text_marshal [0x42]))) sB /\
  godot_icall_StringName_operator_Equals 2%N 1%N sB =
Ok (mono_boolean_of_bool (bool_decide (@mono_string_to_godot text_marshal [0x41] =
                                       @mono_string_to_godot text_marshal [0x42]))) sB.
Proof.
  split; [apply s0_wf|]. split; [reflexivity|]. split; [reflexivity|].
  exact (string_ctor_equals_iff_text s0 [0x41] [0x42] 1%N sA 2%N sB s0_wf eq_refl eq_refl).
Defined.

Lemma dtor_twice_undefined_witness :
  glue_wf s1 /\ godot_icall_StringName_Dtor 1%N s1 = Ok tt (run_state (godot_icall_StringName_Dtor 1%N s1) s1) /\
  godot_icall_StringName_Dtor 1%N (run_state (godot_icall_StringName_Dtor 1%N s1) s1) = UB.
Proof.
  split; [apply s1_wf|]. split; [reflexivity|].
  exact (dtor_twice_undefined s1 1%N _ s1_wf eq_refl).
Defined.

Lemma null_handle_paths_witness :
  glue_wf s1 /\
  godot_icall_StringName_Dtor nullptr s1 = Fail (ErrNullParam "p_ptr") s1 /\
  godot_icall_StringName_StringName_Ctor nullptr s1 = UB /\
  godot_icall_StringName_operator_String (H:=text_marshal) nullptr s1 = UB /\
  godot_icall_StringName_operator_Equals nullptr 1%N s1 = UB /\
  godot_icall_StringName_operator_Equals 1%N nullptr s1 = UB.
Proof. split; [apply s1_wf|]. exact (null_handle_paths s1 1%N s1_wf). Defined.

Lemma create_allocates_fresh_witness :
  glue_wf s0 /\
  1%N <> nullptr /\ deref 1%N (gs_heap s0) = None /\ is_Some (deref 1%N (gs_heap s1)) /\
  live_count (gs_heap s1) = S (live_count (gs_heap s0)) /\
  forall q, q <> 1%N -> deref q (gs_heap s1) = deref q (gs_heap s0).
Proof.
  split; [apply s0_wf|].
  exact (create_allocates_fresh s0 1%N s1 s0_wf (or_introl eq_refl)).
Defined.

Lemma string_ctor_empty_is_default_witness :
  glue_wf s0 /\ @mono_string_to_godot text_marshal [] = [] /\
  godot_icall_StringName_Ctor s0 = Ok 1%N s1 /\
  godot_icall_StringName_String_Ctor (H:=text_marshal) [] s1 =
    Ok 2%N (run_state (godot_icall_StringName_String_Ctor (H:=text_marshal) [] s1) s1) /\
  (godot_icall_StringName_operator_Equals 1%N 2%N
     (run_state (godot_icall_StringName_String_Ctor (H:=text_marshal) [] s1) s1) =
   Ok 1 (run_state (godot_icall_StringName_String_Ctor (H:=text_marshal) [] s1) s1) /\
   godot_icall_StringName_operator_String (H:=text_marshal) 2%N
     (run_state (godot_icall_StringName_String_Ctor (H:=text_marshal) [] s1) s1) =
   Ok (mono_string_from_godot []) (run_state (godot_icall_StringName_String_Ctor (H:=text_marshal) [] s1) s1)).
Proof.
  split; [apply s0_wf|]. split; [reflexivity|]. split; [reflexivity|]. split; [reflexivity|].
  exact (string_ctor_empty_is_default s0 [] 1%N s1 2%N _ s0_wf eq_refl eq_refl eq_refl).
Defined.

Lemma dtor_releases_witness :
  glue_wf s1 /\ deref 1%N (gs_heap s1) = Some None /\
  exists s', godot_icall_StringName_Dtor 1%N s1 = Ok tt s' /\
deref 1%N (gs_heap s') = None /\
S (live_count (gs_heap s')) = live_count (gs_heap s1) /\
(forall q, q <> 1%N -> deref q (gs_heap s') = deref q (gs_heap s1)) /\
gs_table s' = gs_table s1.
Proof.
  split; [apply s1_wf|]. split; [reflexivity|].
  exact (dtor_releases s1 1%N None s1_wf eq_refl).
Defined.

End GlueRuns.
