(* ===== verification/Managed.v ===== *)
(** * The managed side: calls through the internal-call table

    Mono reaches the glue by name.  [godot_register_stringname_icalls]
    binds each icall to [Godot.StringName::<icall>]; a managed call looks
    the name up in the table and runs the native function on the
    marshalled arguments.  [icall_invoke] is that native entry (the
    argument values must match the prototypes of [string_name_glue.h]);
    [managed_call] is the lookup: a name with no binding is a missing
    internal call, and a report of [ERR_FAIL_NULL] inside the [void]
    destructor ends the native call, which returns normally to the managed
    caller (the report is a log line, not an exception).  [run_calls] runs
    a managed program.  The theorems: progress of calls on live handles
    with typed arguments (no undefined behaviour), the exact effect of a
    managed program on the native heap, that every live handle can be
    released (liveness) and that a sequence of destroys is finite
    (termination). *)

From S2P Require Import Prelude Memory Marshal StringName Registry Instances Header Glue.

Module Managed.
Import Memory Glue.

Section ManagedOps.
Context `{MonoMarshal} `{StringNameOps}.
Local Open Scope glue_scope.

(** The values that cross the boundary: [IntPtr] handles, managed
    strings, [bool] bytes, and [void]. *)
Inductive Value :=
| VPtr (p : ptr)
| VStr (m : MonoString _)
| VBool (b : MonoBoolean)
| VVoid.

(** Running an icall on the arguments of a managed call; arguments that
    do not match the native signature are undefined behaviour. *)
Definition icall_invoke (c : ICall) (args : list Value) : GM Value :=
  match c, args with
  | ICall_StringName_Ctor, [] =>
      p <- godot_icall_StringName_Ctor ;; ret (VPtr p)
  | ICall_StringName_String_Ctor, [VStr m] =>
      p <- godot_icall_StringName_String_Ctor m ;; ret (VPtr p)
  | ICall_StringName_StringName_Ctor, [VPtr q] =>
      p <- godot_icall_StringName_StringName_Ctor q ;; ret (VPtr p)
  | ICall_StringName_Dtor, [VPtr q] =>
      godot_icall_StringName_Dtor q ;;; ret VVoid
  | ICall_StringName_operator_String, [VPtr q] =>
      m <- godot_icall_StringName_operator_String q ;; ret (VStr m)
  | ICall_StringName_operator_Equals, [VPtr q1; VPtr q2] =>
      b <- godot_icall_StringName_operator_Equals q1 q2 ;; ret (VBool b)
  | _, _ => undefined
  end.

(** ** Values against the prototypes of [string_name_glue.h] *)

(** The value a managed call passes or receives for a C++ type. *)
Definition value_has_type (v : Value) (ty : Header.CType) : bool :=
  match v, ty with
  | VPtr _, Header.TStringNamePtr | VStr _, Header.TMonoStringPtr
  | VBool _, Header.TMonoBoolean | VVoid, Header.TVoid => true
  | _, _ => false
  end.

Fixpoint args_typed (params : list (Header.CType * string)) (args : list Value) : bool :=
  match params, args with
  | [], [] => true
  | (ty, _) :: params, v :: args => value_has_type v ty && args_typed params args
  | _, _ => false
  end.

(** What a managed call can report: the runtime finds no internal call
    bound to the name (Mono raises [MissingMethodException]). *)
Inductive CallError :=
| MissingInternalCall (name : string).

Definition MM (A : Type) := M GlueState CallError A.

(** A managed call of [name], resolved in the table.  The only error the
    native code reports is [ERR_FAIL_NULL] in the destructor, a [void]
    function: the report returns from it, so the managed caller sees a
    normal return. *)
Definition managed_call (r : gmap string ICall) (name : string) (args : list Value) : MM Value :=
  match Registry.resolve name r with
  | Some c => catch_err (fun _ => VVoid) (icall_invoke c args)
  | None => fail (MissingInternalCall name)
  end.

(** A managed program: calls made one after the other; a missing
    internal call or undefined behaviour ends it. *)
Fixpoint run_calls (r : gmap string ICall) (calls : list (string * list Value)) : MM (list Value) :=
  match calls with
  | [] => ret []
  | (name, args) :: calls =>
      v <- managed_call r name args ;; vs <- run_calls r calls ;; ret (v :: vs)
  end.

(** Every handle among the arguments holds a live object. *)
Definition args_live (s : GlueState) (args : list Value) : Prop :=
  forall p, VPtr p ∈ args -> is_Some (deref p (gs_heap s)).

(** What the specification says a call does to the native heap: each
    constructor allocates one native handle, each destroy of a (non-null)
    handle releases one. *)
Definition call_allocates (r : gmap string ICall) (call : string * list Value) : nat :=
  match Registry.resolve call.1 r with
  | Some (ICall_StringName_Ctor | ICall_StringName_String_Ctor | ICall_StringName_StringName_Ctor) => 1
  | _ => 0
  end.

Definition call_frees (r : gmap string ICall) (call : string * list Value) : nat :=
  match Registry.resolve call.1 r, call.2 with
  | Some ICall_StringName_Dtor, [VPtr p] => if decide (p = nullptr) then 0 else 1
  | _, _ => 0
  end.

(** A destroy of a non-null handle through the table that returns: the
    finalizer of a managed [StringName] releasing its handle. *)
Definition release (r : gmap string ICall) (s s' : GlueState) : Prop :=
  exists p, p <> nullptr /\
  managed_call r (icall_name ICall_StringName_Dtor) [VPtr p] s = Ok VVoid s'.

End ManagedOps.

(** ** Lemmas *)

Section ManagedLemmas.
Context `{MonoMarshal} `{StringNameOps}.
Local Open Scope glue_scope.
Implicit Types (s : GlueState) (p q : ptr).

Lemma icall_invoke_preserves c args : preserves glue_wf (icall_invoke c args).
Proof. unfold icall_invoke. repeat case_match; eauto 6 with glue. Qed.

Lemma managed_call_preserves r name args : preserves glue_wf (managed_call r name args).
Proof. unfold managed_call. case_match; eauto using icall_invoke_preserves with glue. Qed.

(** A registered name runs its icall. *)
Lemma managed_call_registered c args s :
  managed_call (godot_register_stringname_icalls ∅) (icall_name c) args s =
  catch_err (fun _ => VVoid) (icall_invoke c args) s.
Proof.
  unfold managed_call, godot_register_stringname_icalls.
  rewrite (Registry.resolve_add_internal_calls _ _ _ c); [done|apply stringname_icalls_NoDup|].
  apply stringname_icalls_elem.
Qed.

Lemma live_count_insert_next {V} (h : heap V) v :
  heap_wf h -> live_count (mk_heap (<[next_addr h:=v]> (cells h)) (next_addr h + 1)%N) = S (live_count h).
Proof. apply (live_count_memnew v h). Qed.

(** The effect of one managed call that returns on the native heap. *)
Lemma managed_call_accounting r name args s v s' :
  glue_wf s -> managed_call r name args s = Ok v s' ->
  live_count (gs_heap s') + call_frees r (name, args) =
    live_count (gs_heap s) + call_allocates r (name, args) /\
  next_addr (gs_heap s') = (next_addr (gs_heap s) + N.of_nat (call_allocates r (name, args)))%N.
Proof.
  destruct s as [h t]. intros (Hh & _ & _) Hr. cbn [gs_heap] in Hh.
  unfold managed_call, catch_err, call_frees, call_allocates in *. cbn [fst snd].
  destruct (Registry.resolve name r) as [c|]; [|done].
  destruct c; destruct args as [|v1 [|v2 [|v3 args]]]; try destruct v1; try destruct v2;
  cbn [icall_invoke] in Hr; try done; unfold bind in Hr;
  [rewrite ctor_run in Hr|rewrite string_ctor_run in Hr|rewrite copy_ctor_run in Hr
  |rewrite dtor_run in Hr|rewrite to_string_run in Hr|rewrite equals_run in Hr];
  repeat case_match; simplify_eq; unfold ret in *; simplify_eq; cbn [gs_heap next_addr];
  try (rewrite live_count_insert_next by done); try (split; lia).
  match goal with Hd : memdelete _ _ = Some _ |- _ =>
    pose proof (live_count_memdelete _ _ _ Hd); rewrite (next_addr_memdelete _ _ _ Hd) end.
  split; lia.
Qed.

(** A destroy of a non-null handle through any table that returns has
  released one object. *)
Lemma release_live_count r s s' : release r s s' -> live_count (gs_heap s') < live_count (gs_heap s).
Proof.
  intros (p & Hnn & Hr). unfold managed_call, catch_err in Hr.
  destruct (Registry.resolve _ r) as [c|]; [|done].
  destruct s as [h t].
  destruct c; cbn [icall_invoke] in Hr; unfold bind in Hr; try done;
  [rewrite copy_ctor_run in Hr|rewrite dtor_run, decide_False in Hr by done|rewrite to_string_run in Hr];
  repeat case_match; simplify_eq.
  match goal with Hd : memdelete p h = Some _, Hr : ret _ _ = Ok _ _ |- _ =>
    injection Hr as <-; apply live_count_memdelete in Hd end.
  cbn [gs_heap]. lia.
Qed.

Lemma live_nonnull s p : glue_wf s -> is_Some (deref p (gs_heap s)) -> p <> nullptr.
Proof. intros (Hh & _ & _) [n Hn] ->. by rewrite deref_null in Hn. Qed.

(** A live handle of a well-formed state can be destroyed through the
  registered table: one object fewer, the table and the invariant kept. *)
Lemma release_registered_live s p n :
  glue_wf s -> deref p (gs_heap s) = Some n ->
  exists s', release (godot_register_stringname_icalls ∅) s s' /\
  S (live_count (gs_heap s')) = live_count (gs_heap s) /\ gs_table s' = gs_table s /\ glue_wf s'.
Proof.
  intros Hwf Hp. destruct (dtor_releases s p n Hwf Hp) as (s' & Hd & _ & Hcount & _ & Ht).
  exists s'. split_and!; [|done|done|].
  - exists p. split; [eapply live_nonnull; [done|by eexists]|].
    rewrite managed_call_registered. unfold catch_err. simpl. unfold bind. by rewrite Hd.
  - pose proof (dtor_preserves p s Hwf) as Hpres. by rewrite Hd in Hpres.
Qed.

Lemma live_count_pos_lookup s : live_count (gs_heap s) <> 0 -> exists p n, deref p (gs_heap s) = Some n.
Proof. intros Hn. unfold live_count in Hn. by apply map_size_ne_0_lookup in Hn. Qed.

Lemma args_live_ptr s p args :
  args_live s (VPtr p :: args) -> is_Some (deref p (gs_heap s)) /\ args_live s args.
Proof. intros Hl. split; [apply Hl; set_solver|]. intros q Hq. apply Hl. set_solver. Qed.

(** Progress of the native entry: typed arguments whose handles are live
  make every icall return normally. *)
Lemma icall_invoke_progress c pr args s :
  glue_wf s -> Header.find_proto (icall_symbol c) Header.glue_protos = Some pr ->
  args_typed (Header.pr_params pr) args = true -> args_live s args ->
  exists v s', icall_invoke c args s = Ok v s'.
Proof.
  intros Hwf Hpr Ht Hl.
  destruct c; vm_compute in Hpr; injection Hpr as <-;
  destruct args as [|v1 [|v2 [|v3 args]]]; try destruct v1; try destruct v2;
  cbn [args_typed value_has_type Header.pr_params Header.pr_ret andb] in Ht; try discriminate;
  repeat match goal with Hl : args_live _ (VPtr _ :: _) |- _ =>
    apply args_live_ptr in Hl as [[? ?] Hl] end;
  destruct s as [h t]; cbn [gs_heap] in *; unfold icall_invoke, bind.
  - rewrite ctor_run. by eexists _, _.
  - rewrite string_ctor_run. by eexists _, _.
  - rewrite copy_ctor_run. match goal with H : deref _ _ = Some _ |- _ => rewrite H end. by eexists _, _.
  - rewrite dtor_run, decide_False by (eapply (live_nonnull (mk_state h t)); [done|by eexists]).
    unfold deref in *. rewrite memdelete_Some by (by eexists). by eexists _, _.
  - rewrite to_string_run. match goal with H : deref _ _ = Some _ |- _ => rewrite H end. by eexists _, _.
  - rewrite equals_run. do 2 match goal with H : deref _ _ = Some _ |- _ => rewrite H; clear H end.
    by eexists _, _.
Qed.

End ManagedLemmas.

(** ** Theorems *)

Section ManagedTheorems.
Context `{MonoMarshal} `{StringNameOps}.
Local Open Scope glue_scope.

(** C8: Liveness of release.  From every well-formed state, the managed
  side can destroy its handles one by one through the registered table
  until no native object is left; the interning table is untouched. *)
Theorem release_all s :
  glue_wf s ->
  exists s', rtc (release (godot_register_stringname_icalls ∅)) s s' /\
  live_count (gs_heap s') = 0 /\ gs_table s' = gs_table s.
Proof.
  remember (live_count (gs_heap s)) as k eqn:Hk. revert s Hk.
  induction k as [|k IH]; intros s Hk Hwf; [by exists s|].
  destruct (live_count_pos_lookup s) as (p & n & Hp); [lia|].
  destruct (release_registered_live s p n Hwf Hp) as (s1 & Hr & Hc & Ht & Hwf1).
  destruct (IH s1) as (s' & Hrtc & Hz & Ht'); [lia|done|].
  exists s'. split_and!; [by eapply rtc_l|done|congruence].
Qed.

(** C9: Termination of release.  Through any internal-call table, there
  is no infinite sequence of destroys of non-null handles that return:
  each one frees a native object, so a chain is at most as long as the
  number of live objects. *)
Theorem release_wf r : well_founded (fun s' s => release r s s').
Proof.
  intros s. remember (live_count (gs_heap s)) as n eqn:Hn. revert s Hn.
  induction n as [n IH] using lt_wf_ind. intros s ->. constructor. intros s' Hr.
  by eapply IH; [apply (release_live_count r)|].
Qed.

(** C16: Each registration binds the managed name
  [Godot.StringName::<f>] to the native function [f] it names, and that
  function is declared by the header in the enabled build. *)
Theorem registration_matches_header c :
  icall_name c = "Godot.StringName::" +:+ icall_symbol c /\
  is_Some (Header.find_proto (icall_symbol c) Header.glue_protos).
Proof. destruct c; (split; [reflexivity|]); vm_compute; by eexists. Qed.

(** C7: Safety of disciplined calls.  A managed call through the
  registered table whose arguments match the prototype the header
  declares and whose handles are all live never ends in undefined
  behaviour: it returns normally and the invariant holds after it.
  Undefined behaviour needs a null, destroyed or never-created handle,
  or arguments of the wrong types. *)
Theorem managed_call_progress c pr args s :
  glue_wf s -> Header.find_proto (icall_symbol c) Header.glue_protos = Some pr ->
  args_typed (Header.pr_params pr) args = true -> args_live s args ->
  exists v s', managed_call (godot_register_stringname_icalls ∅) (icall_name c) args s = Ok v s' /\
  glue_wf s'.
Proof.
  intros Hwf Hpr Ht Hl.
  destruct (icall_invoke_progress c pr args s Hwf Hpr Ht Hl) as (v & s' & Hr).
  exists v, s'. rewrite managed_call_registered. unfold catch_err. rewrite Hr. split; [done|].
  pose proof (icall_invoke_preserves c args s Hwf) as Hp. by rewrite Hr in Hp.
Qed.

(** C10: The effect of a managed program on the native heap.  When a
  program returns normally, every constructor call has allocated exactly
  one object at a fresh address and every destroy of a non-null handle
  has released exactly one, while the conversions and comparisons have
  allocated and released nothing: the live objects after the program are
  those before plus the allocations minus the releases, the allocator has
  moved by the number of allocations, and there is one result per call. *)
Theorem run_calls_heap_accounting r calls s vs s' :
  glue_wf s -> run_calls r calls s = Ok vs s' ->
  live_count (gs_heap s') + list_sum (call_frees r <$> calls) =
    live_count (gs_heap s) + list_sum (call_allocates r <$> calls) /\
  next_addr (gs_heap s') = (next_addr (gs_heap s) + N.of_nat (list_sum (call_allocates r <$> calls)))%N /\
  length vs = length calls.
Proof.
  revert s vs. induction calls as [|[name args] calls IH]; intros s vs Hwf Hr.
  - cbn in Hr. injection Hr as <- <-. cbn. split_and!; lia.
  - cbn [run_calls] in Hr. outcome_inv Hr. unfold ret in Hr. injection Hr as <- <-.
    pose proof (managed_call_preserves r name args s Hwf) as Hwf1. rewrite Hstep in Hwf1.
    destruct (managed_call_accounting r name args s _ _ Hwf Hstep) as [Hc Hn].
    destruct (IH s0 a0 Hwf1 Hstep0) as (Hc' & Hn' & Hl).
    rewrite !fmap_cons. unfold list_sum in *. cbn [length foldr]. split_and!; lia.
Qed.

End ManagedTheorems.

End Managed.

(** ** Runs on the interning table *)

Module ManagedRuns.
Import Memory Glue Managed.
Local Open Scope Z_scope.

Local Notation s0 :=
  (@mk_state intern_table_ops empty_heap InternTable.empty_table) (only parsing).

Local Notation s1 :=
  (match godot_icall_StringName_Ctor s0 with Ok _ s' => s' | _ => s0 end) (only parsing).

Lemma release_all_witness :
  glue_wf s1 /\ live_count (gs_heap s1) = 1%nat /\
  exists s', rtc (release (H:=text_marshal) (godot_register_stringname_icalls ∅)) s1 s' /\
  live_count (gs_heap s') = 0%nat /\ gs_table s' = gs_table s1.
Proof.
  assert (Hwf : glue_wf s1) by exact (ctor_preserves s0 GlueRuns.s0_wf).
  split; [exact Hwf|]. split; [reflexivity|]. exact (release_all s1 Hwf).
Defined.

Lemma managed_call_progress_witness :
  glue_wf s1 /\
  Header.find_proto (icall_symbol ICall_StringName_operator_Equals) Header.glue_protos =
    Some (Header.mk_proto Header.TMonoBoolean "godot_icall_StringName_operator_Equals"
            [(Header.TStringNamePtr, "p_sn1"); (Header.TStringNamePtr, "p_sn2")]) /\
  args_typed [(Header.TStringNamePtr, "p_sn1"); (Header.TStringNamePtr, "p_sn2")] [VPtr 1%N; VPtr 1%N] = true /\
  args_live s1 [VPtr 1%N; VPtr 1%N] /\
  exists v s', managed_call (H:=text_marshal) (godot_register_stringname_icalls ∅)
    (icall_name ICall_StringName_operator_Equals) [VPtr 1%N; VPtr 1%N] s1 = Ok v s' /\ glue_wf s'.
Proof.
  assert (Hwf : glue_wf s1) by exact (ctor_preserves s0 GlueRuns.s0_wf).
  assert (Hpr : Header.find_proto (icall_symbol ICall_StringName_operator_Equals) Header.glue_protos =
    Some (Header.mk_proto Header.TMonoBoolean "godot_icall_StringName_operator_Equals"
            [(Header.TStringNamePtr, "p_sn1"); (Header.TStringNamePtr, "p_sn2")])) by reflexivity.
  assert (Hl : args_live s1 [VPtr 1%N; VPtr 1%N]).
  { intros p Hp. assert (p = 1%N) as -> by set_solver. by eexists. }
  split; [exact Hwf|]. split; [exact Hpr|]. split; [reflexivity|]. split; [exact Hl|].
  exact (managed_call_progress _ _ [VPtr 1%N; VPtr 1%N] s1 Hwf Hpr eq_refl Hl).
Defined.

(** A program that creates a name from "A", creates a default name,
  destroys the first, and destroys the null handle (reported, then a
  normal return). *)
Local Notation prog :=
  [(icall_name ICall_StringName_String_Ctor, [VStr (H:=text_marshal) [0x41]]);
   (icall_name ICall_StringName_Ctor, []);
   (icall_name ICall_StringName_Dtor, [VPtr 1%N]);
   (icall_name ICall_StringName_Dtor, [VPtr nullptr])] (only parsing).

Local Notation prog_final :=
  (match run_calls (godot_register_stringname_icalls ∅) prog s0 with Ok _ s' => s' | _ => s0 end)
  (only parsing).

Lemma run_calls_heap_accounting_witness :
  glue_wf s0 /\
  run_calls (godot_register_stringname_icalls ∅) prog s0 = Ok [VPtr 1%N; VPtr 2%N; VVoid; VVoid] prog_final /\
  (live_count (gs_heap prog_final) + list_sum (call_frees (godot_register_stringname_icalls ∅) <$> prog) =
     live_count (gs_heap s0) + list_sum (call_allocates (godot_register_stringname_icalls ∅) <$> prog) /\
   next_addr (gs_heap prog_final) =
     (next_addr (gs_heap s0) + N.of_nat (list_sum (call_allocates (godot_register_stringname_icalls ∅) <$> prog)))%N /\
   length [VPtr 1%N; VPtr 2%N; VVoid; VVoid] = length prog)%nat.
Proof.
  assert (Hrun : run_calls (godot_register_stringname_icalls ∅) prog s0 =
    Ok [VPtr 1%N; VPtr 2%N; VVoid; VVoid] prog_final) by reflexivity.
  split; [exact GlueRuns.s0_wf|]. split; [exact Hrun|].
  exact (run_calls_heap_accounting _ prog s0 _ _ GlueRuns.s0_wf Hrun).
Defined.

End ManagedRuns.
