(* ===== verification/GlueSpec.v ===== *)
(** * An abstract model of StringName handles and the refinement theorem

    The specification describes the glue without interning: a handle
    denotes a text; the constructors create a handle for the empty text,
    for the decoded managed string, or for the text of another handle;
    destroy releases a handle; [operator_String] returns the encoding of
    the text; [operator_Equals] compares the texts.  [HandleSpec] writes
    this down over a state that maps handles to texts.  The lemma
    [managed_call_refines] shows that every managed call on the concrete
    glue of [Glue] (heap of names plus interning table) has the same
    outcome as on the abstract model (the same result value, the same
    reported error, or undefined behaviour in both), and keeps the two
    states related; [run_calls_refines] lifts it to whole managed
    programs. *)

From S2P Require Import Prelude Memory Marshal StringName Registry Instances Glue Managed.

Module HandleSpec.
Import Memory Glue Managed.

Section Spec.
Context `{MonoMarshal} `{StringNameOps}.
Local Open Scope glue_scope.

Record AState := mk_astate {
  a_handles : gmap N GodotString;
  a_next : N
}.

Definition AM (A : Type) := M AState GlueError A.

Definition a_create (txt : GodotString) : AM ptr :=
  fun a => Ok (a_next a) (mk_astate (<[a_next a:=txt]> (a_handles a)) (a_next a + 1)%N).

Definition a_text (q : ptr) : AM GodotString := lift_opt (fun a => a_handles a !! q).

Definition a_ctor : AM ptr := a_create [].

Definition a_string_ctor (m : MonoString _) : AM ptr := a_create (mono_string_to_godot m).

Definition a_copy_ctor (q : ptr) : AM ptr := txt <- a_text q ;; a_create txt.

Definition a_dtor (q : ptr) : AM unit :=
  if decide (q = nullptr) then fail (ErrNullParam "p_ptr")
  else fun a => match a_handles a !! q with
                | Some _ => Ok tt (mk_astate (delete q (a_handles a)) (a_next a))
                | None => UB
                end.

Definition a_to_string (q : ptr) : AM (MonoString _) :=
  txt <- a_text q ;; ret (mono_string_from_godot txt).

Definition a_equals (q1 q2 : ptr) : AM MonoBoolean :=
  t1 <- a_text q1 ;; t2 <- a_text q2 ;; ret (mono_boolean_of_bool (bool_decide (t1 = t2))).

Definition a_invoke (c : ICall) (args : list Value) : AM Value :=
  match c, args with
  | ICall_StringName_Ctor, [] => p <- a_ctor ;; ret (VPtr p)
  | ICall_StringName_String_Ctor, [VStr m] => p <- a_string_ctor m ;; ret (VPtr p)
  | ICall_StringName_StringName_Ctor, [VPtr q] => p <- a_copy_ctor q ;; ret (VPtr p)
  | ICall_StringName_Dtor, [VPtr q] => a_dtor q ;;; ret VVoid
  | ICall_StringName_operator_String, [VPtr q] => m <- a_to_string q ;; ret (VStr m)
  | ICall_StringName_operator_Equals, [VPtr q1; VPtr q2] =>
      b <- a_equals q1 q2 ;; ret (VBool b)
  | _, _ => undefined
  end.

Definition a_managed_call (r : gmap string ICall) (name : string) (args : list Value) :
  M AState CallError Value :=
  match Registry.resolve name r with
  | Some c => catch_err (fun _ => VVoid) (a_invoke c args)
  | None => fail (MissingInternalCall name)
  end.

Fixpoint a_run_calls (r : gmap string ICall) (calls : list (string * list Value)) :
  M AState CallError (list Value) :=
  match calls with
  | [] => ret []
  | (name, args) :: calls =>
      v <- a_managed_call r name args ;; vs <- a_run_calls r calls ;; ret (v :: vs)
  end.

(** The abstraction: the concrete state is well formed, allocates at the
    same next address, and each handle denotes the text of its name. *)
Definition abs (s : GlueState) (a : AState) : Prop :=
  glue_wf s /\ a_next a = next_addr (gs_heap s) /\
  forall p, a_handles a !! p = sn_to_string (gs_table s) <$> deref p (gs_heap s).

End Spec.

(** ** Simulation, call by call *)

Section Refinement.
Context `{MonoMarshal} `{StringNameOps}.
Local Open Scope glue_scope.

Lemma abs_lookup h t a p :
  abs (mk_state h t) a -> a_handles a !! p = sn_to_string t <$> deref p h.
Proof. intros (_ & _ & Hp). apply Hp. Qed.

(** Allocation on both sides keeps the states related, provided the new
  table keeps the texts of the names already on the heap. *)
Lemma abs_alloc h t t' a n :
  abs (mk_state h t) a -> glue_wf (mk_state (memnew n h).2 t') ->
  (forall p n', deref p h = Some n' -> sn_to_string t' n' = sn_to_string t n') ->
  abs (mk_state (memnew n h).2 t')
    (mk_astate (<[a_next a:=sn_to_string t' n]> (a_handles a)) (a_next a + 1)%N).
Proof.
  intros (Hwf & Hnext & Hp) Hwf' Hstable. split_and!; [done| |].
  - cbn [gs_heap a_next]. rewrite next_addr_memnew. cbn [gs_heap] in Hnext. lia.
  - intros q. cbn [gs_heap gs_table a_handles]. rewrite lookup_insert. cbn [gs_heap] in Hnext.
  rewrite Hnext. case_decide as Hq.
  + subst q. by rewrite deref_memnew_next.
  + rewrite deref_memnew_ne by (simpl; congruence). rewrite Hp. cbn [gs_heap gs_table].
    destruct (deref q h) as [n'|] eqn:Hd; [|done]. simpl. by rewrite (Hstable q n').
Qed.

Lemma ctor_refines s a :
  abs s a -> out_rel abs (godot_icall_StringName_Ctor s) (a_ctor a).
Proof.
  destruct s as [h t]. intros Habs. rewrite ctor_run. split; [by destruct Habs as (_ & -> & _)|].
  unfold a_ctor, a_create. cbn [a_next a_handles].
  rewrite <- (sn_default_string t). apply (abs_alloc h t t a sn_default); [done| |done].
  apply glue_wf_memnew; [apply Habs|apply sn_default_valid].
Qed.

Lemma string_ctor_refines s a m :
  abs s a -> out_rel abs (godot_icall_StringName_String_Ctor m s) (a_string_ctor m a).
Proof.
  destruct s as [h t]. intros Habs. pose proof Habs as (Hwf & Hnext & _).
  pose proof (proj1 (proj2 Hwf)) as Ht.
  rewrite string_ctor_run. split; [by rewrite Hnext|].
  set (st := sn_intern (mono_string_to_godot m) t).
  assert (Hs : sn_to_string st.2 st.1 = mono_string_to_godot m) by apply (sn_intern_string _ _ Ht).
  unfold a_string_ctor, a_create. cbn [a_next a_handles]. rewrite <- Hs.
  apply (abs_alloc h t st.2 a st.1); [done| |].
  - apply glue_wf_memnew; [by apply glue_wf_intern|by apply sn_intern_valid].
  - intros p n' Hd. apply sn_intern_stable; [done|]. by eapply glue_wf_deref_valid.
Qed.

Lemma copy_ctor_refines s a q :
  abs s a -> out_rel abs (godot_icall_StringName_StringName_Ctor q s) (a_copy_ctor q a).
Proof.
  destruct s as [h t]. intros Habs. rewrite copy_ctor_run.
  unfold a_copy_ctor, bind, a_text, lift_opt. rewrite (abs_lookup h t a q Habs).
  destruct (deref q h) as [n|] eqn:Hq; [|done]. simpl. split; [by destruct Habs as (_ & -> & _)|].
  unfold a_create. cbn [a_next a_handles].
  rewrite <- (sn_copy_string t n). apply (abs_alloc h t t a (sn_copy n)); [done| |done].
  apply glue_wf_memnew; [apply Habs|]. apply sn_copy_valid. eapply glue_wf_deref_valid; [apply Habs|done].
Qed.

Lemma dtor_refines s a q :
  abs s a -> out_rel abs (godot_icall_StringName_Dtor q s) (a_dtor q a).
Proof.
  destruct s as [h t]. intros Habs. rewrite dtor_run. unfold a_dtor.
  case_decide; [done|]. rewrite (abs_lookup h t a q Habs).
  unfold memdelete. unfold deref. destruct (cells h !! q) as [n|] eqn:Hq; [|done].
  simpl. split; [done|]. destruct Habs as (Hwf & Hnext & Hp).
  assert (Hd : memdelete q h = Some (mk_heap (delete q (cells h)) (next_addr h)))
  by (apply memdelete_Some; by eexists).
  split_and!; [by eapply glue_wf_memdelete|done|].
  intros p. cbn [a_handles gs_heap gs_table]. rewrite lookup_delete.
  rewrite (deref_memdelete q h _ p Hd). case_decide; [done|]. apply Hp.
Qed.

Lemma to_string_refines s a q :
  abs s a -> out_rel abs (godot_icall_StringName_operator_String q s) (a_to_string q a).
Proof.
  destruct s as [h t]. intros Habs. rewrite to_string_run.
  unfold a_to_string, bind, a_text, lift_opt. rewrite (abs_lookup h t a q Habs).
  by destruct (deref q h).
Qed.

Lemma equals_refines s a q1 q2 :
  abs s a -> out_rel abs (godot_icall_StringName_operator_Equals q1 q2 s) (a_equals q1 q2 a).
Proof.
  destruct s as [h t]. intros Habs. rewrite equals_run.
  unfold a_equals, bind, a_text, lift_opt. rewrite (abs_lookup h t a q1 Habs).
  destruct (deref q1 h) as [n1|] eqn:H1; [|done]. simpl.
  rewrite (abs_lookup h t a q2 Habs).
  destruct (deref q2 h) as [n2|] eqn:H2; [|done]. simpl. split; [|done]. destruct Habs as (Hwf & _ & _).
  rewrite (eqb_bool_decide t); [done|apply Hwf|..]; by eapply glue_wf_deref_valid.
Qed.
#[local] Hint Resolve ctor_refines string_ctor_refines copy_ctor_refines dtor_refines
  to_string_refines equals_refines : glue.

Lemma invoke_refines c args s a :
  abs s a -> out_rel abs (icall_invoke c args s) (a_invoke c args a).
Proof.
  intros Habs. unfold icall_invoke, a_invoke.
  repeat case_match; try done;
  (eapply out_rel_bind; [eauto with glue|]); intros; by apply out_rel_ret.
Qed.

Lemma abs_init t : sn_table_wf t -> abs (mk_state empty_heap t) (mk_astate ∅ 1%N).
Proof.
  intros Ht. split_and!; [by apply init_state_wf|done|].
  intros p. cbn. unfold deref. simpl. by rewrite !lookup_empty.
Qed.

(** Every managed call on the concrete glue has the outcome it has on the
  abstract model, and the states after the call are again related. *)
Lemma managed_call_refines r name args s a :
  abs s a -> out_rel abs (managed_call r name args s) (a_managed_call r name args a).
Proof.
  intros Habs. unfold managed_call, a_managed_call.
  destruct (Registry.resolve name r); [by apply out_rel_catch_err, invoke_refines|done].
Qed.

(** The simulation lifted to sequences of calls. *)
Lemma run_calls_sim r calls s a :
  abs s a -> out_rel abs (run_calls r calls s) (a_run_calls r calls a).
Proof.
  revert s a. induction calls as [|[name args] calls IH]; intros s a Habs; [done|].
  cbn [run_calls a_run_calls]. eapply out_rel_bind; [by apply managed_call_refines|].
  intros v s' a' Habs'. eapply out_rel_bind; [by apply IH|]. intros. by apply out_rel_ret.
Qed.

(** C2: Refinement of managed programs.  Any sequence of managed calls
  has on the concrete glue the outcome it has on the abstract model: the
  same list of results, or the same first error, or undefined behaviour
  on both sides, with related final states. *)
Theorem run_calls_refines r calls s a :
  abs s a -> out_rel abs (run_calls r calls s) (a_run_calls r calls a).
Proof. apply run_calls_sim. Qed.

End Refinement.

End HandleSpec.

Module SpecRuns.
Import Memory Glue Managed HandleSpec.
Local Open Scope Z_scope.

(** A program that creates a name from ["A"], copies it, compares the
  two, converts the copy back and destroys both handles. *)
Local Notation calls :=
  [(icall_name ICall_StringName_String_Ctor, [VStr [0x41]]);
   (icall_name ICall_StringName_StringName_Ctor, [VPtr 1%N]);
   (icall_name ICall_StringName_operator_Equals, [VPtr 1%N; VPtr 2%N]);
   (icall_name ICall_StringName_operator_String, [VPtr 2%N]);
   (icall_name ICall_StringName_Dtor, [VPtr 1%N]);
   (icall_name ICall_StringName_Dtor, [VPtr 2%N])] (only parsing).

Lemma run_calls_refines_witness :
  abs (@mk_state intern_table_ops empty_heap InternTable.empty_table) (mk_astate ∅ 1%N) /\
  out_rel abs
(run_calls (H:=text_marshal) (godot_register_stringname_icalls ∅) calls
   (@mk_state intern_table_ops empty_heap InternTable.empty_table))
(a_run_calls (H:=text_marshal) (godot_register_stringname_icalls ∅) calls (mk_astate ∅ 1%N)).
Proof.
  assert (Habs : abs (@mk_state intern_table_ops empty_heap InternTable.empty_table) (mk_astate ∅ 1%N))
by (apply abs_init, InternTable.empty_table_wf).
  split; [exact Habs|]. exact (run_calls_refines _ _ _ _ Habs).
Defined.

End SpecRuns.
